(** * The FStar and Pulse highlighting lexers of [book/fstar_pygments.py]

    The source file declares two Pygments [RegexLexer] subclasses,
    [CustomLexer] for FStar and [PulseLexer] for Pulse.  Each is a table of
    (pattern, token type) rules for the single state [root]; the loop that
    applies the table, [RegexLexer.get_tokens_unprocessed], and the regular
    expression matcher, Python's [re] compiled with [re.MULTILINE], belong to
    the host.  This development embeds:

    - Python text as a list of Unicode code points;
    - the fragment of [re] the two tables use, as a syntax tree and a
      backtracking matcher that explores alternatives in [re]'s priority
      order (leftmost alternative first, greedy repetition);
    - Pygments' [words(..., suffix=r'\b')] as an ordered alternation of
      literals followed by a word-boundary test;
    - the two rule tables, entry by entry;
    - the loop of [get_tokens_unprocessed] on the text it is given, including
      its fallback branch for a position no rule matches.

    The loop is studied on the text it receives: the preprocessing that
    [Lexer.get_tokens] applies first (newline normalisation and the [stripnl]
    and [ensurenl] options) is the host's and is not modelled.

    The only datum the embedding cannot spell out is which code points above
    127 Python's [\w] accepts (the Unicode alphanumerics); it is a Section
    variable, so every theorem holds for whatever that table is. *)

From Stdlib Require Import String Ascii List NArith Bool Arith Lia.
Import ListNotations.

(** ** Text *)

Definition char := N.
Definition text := list char.

Definition ch (a : ascii) : char := N_of_ascii a.
Definition str (s : string) : text := map ch (list_ascii_of_string s).

Definition newline : char := 10%N.
Definition carriage_return : char := 13%N.

(** ** Regular expressions: the fragment of Python's [re] used by the rules *)

Module Re.

(** An item of a bracketed character class: [c] or [lo-hi]. *)
Inductive class_item : Type :=
| One (c : char)
| Range (lo hi : char).

Definition in_item (x : char) (i : class_item) : bool :=
  match i with
  | One c => (x =? c)%N
  | Range lo hi => ((lo <=? x) && (x <=? hi))%N
  end.

Definition in_class (items : list class_item) (x : char) : bool :=
  existsb (in_item x) items.

Inductive regex : Type :=
| Chr (c : char)                      (* a literal character *)
| Dot                                 (* [.] without DOTALL *)
| Class (items : list class_item)     (* [[...]] *)
| NotClass (items : list class_item)  (* [[^...]] *)
| Seq (r1 r2 : regex)                 (* r1 r2 *)
| Alt (r1 r2 : regex)                 (* r1|r2 *)
| Star (r : regex)                    (* r*, greedy *)
| Plus (r : regex).                   (* r+, greedy *)

(** The characters a one-character pattern accepts.  The lexers compile their
    patterns with [re.MULTILINE] only, so [.] rejects the newline (and nothing
    else); a negated class accepts the newline like any other character. *)
Definition dot_accepts (x : char) : bool := negb (x =? newline)%N.

(** One character against a predicate, then the continuation. *)
Definition atom (p : char -> bool) (s : text) (k : text -> option text)
  : option text :=
  match s with
  | c :: s' => if p c then k s' else None
  | [] => None
  end.

(** Greedy repetition with backtracking: try one more iteration of [step]
    (which must consume something) and the rest of the repetition; when that
    fails, leave the repetition here.  [fuel] bounds the iterations by the
    length of the text. *)
Fixpoint repeat_greedy (step : text -> (text -> option text) -> option text)
    (fuel : nat) (s : text) (k : text -> option text) : option text :=
  match fuel with
  | O => k s
  | S fuel' =>
      match step s (fun s' =>
                      if (length s' <? length s)%nat
                      then repeat_greedy step fuel' s' k
                      else None) with
      | Some r => Some r
      | None => k s
      end
  end.

(** [rmatch r s k]: match [r] at the start of [s] and hand the remaining text
    to [k]; the first success in priority order is the answer. *)
Fixpoint rmatch (r : regex) (s : text) (k : text -> option text)
  : option text :=
  match r with
  | Chr c => atom (fun x => (x =? c)%N) s k
  | Dot => atom dot_accepts s k
  | Class items => atom (in_class items) s k
  | NotClass items => atom (fun x => negb (in_class items x)) s k
  | Seq r1 r2 => rmatch r1 s (fun s1 => rmatch r2 s1 k)
  | Alt r1 r2 =>
      match rmatch r1 s k with
      | Some r => Some r
      | None => rmatch r2 s k
      end
  | Star r1 => repeat_greedy (rmatch r1) (length s) s k
  | Plus r1 =>
      rmatch r1 s (fun s1 => repeat_greedy (rmatch r1) (length s1) s1 k)
  end.

(** [pattern.match(text, pos)] on the text from [pos] on: the text that
    remains after the match. *)
Definition match_prefix (r : regex) (s : text) : option text :=
  rmatch r s (fun rest => Some rest).

(** The words a pattern denotes, apart from any priority. *)
Inductive matches : regex -> text -> Prop :=
| MChr c : matches (Chr c) [c]
| MDot c : dot_accepts c = true -> matches Dot [c]
| MClass items c : in_class items c = true -> matches (Class items) [c]
| MNotClass items c :
    in_class items c = false -> matches (NotClass items) [c]
| MSeq r1 r2 w1 w2 :
    matches r1 w1 -> matches r2 w2 -> matches (Seq r1 r2) (w1 ++ w2)
| MAltL r1 r2 w : matches r1 w -> matches (Alt r1 r2) w
| MAltR r1 r2 w : matches r2 w -> matches (Alt r1 r2) w
| MStarNil r : matches (Star r) []
| MStarCons r w1 w2 :
    matches r w1 -> w1 <> [] -> matches (Star r) w2 ->
    matches (Star r) (w1 ++ w2)
| MPlus r w1 w2 :
    matches r w1 -> matches (Star r) w2 -> matches (Plus r) (w1 ++ w2).

(** Whether a pattern can match the empty word. *)
Fixpoint nullable (r : regex) : bool :=
  match r with
  | Chr _ | Dot | Class _ | NotClass _ => false
  | Seq r1 r2 => nullable r1 && nullable r2
  | Alt r1 r2 => nullable r1 || nullable r2
  | Star _ => true
  | Plus r1 => nullable r1
  end.

(** Whether every repetition in a pattern repeats something that consumes
    text.  The matcher gives up an iteration that consumed nothing; for such
    patterns this never happens. *)
Fixpoint repeats_consume (r : regex) : bool :=
  match r with
  | Chr _ | Dot | Class _ | NotClass _ => true
  | Seq r1 r2 | Alt r1 r2 => repeats_consume r1 && repeats_consume r2
  | Star r1 | Plus r1 => negb (nullable r1) && repeats_consume r1
  end.

End Re.

Import Re.

(** ** Pygments: token types, rules and lexers *)

(** The token types that can reach the output: the three the tables name, and
    the two the loop itself emits where no rule matches. *)
Inductive token_type : Type := Text | Comment | Keyword | Whitespace | Error.

(** A rule's pattern: a regular expression written out, or
    [words(ws, suffix=r'\b')]. *)
Inductive pattern : Type :=
| Regex (r : regex)
| Words (ws : list string).

Definition rule := (pattern * token_type)%type.

Record lexer : Type := {
  name : string;
  aliases : list string;
  filenames : list string;
  tokens : list rule            (* the rules of state 'root' *)
}.

(** What the loop yields: the offset of the match, the rule's token type and
    the matched text. *)
Definition token := (nat * token_type * text)%type.

Definition tok_pos (t : token) : nat := fst (fst t).
Definition tok_type (t : token) : token_type := snd (fst t).
Definition tok_text (t : token) : text := snd t.

(** ** The two lexers of the source file *)

Definition fstar_keywords : list string :=
  ["attributes"; "noeq"; "unopteq"; "and"; "assert"; "assert_norm"; "assume";
   "begin"; "by"; "calc"; "class"; "decreases"; "Dv"; "effect"; "eliminate";
   "else"; "end"; "ensures"; "exception"; "exists"; "false"; "friend";
   "forall"; "fun"; "function"; "GTot"; "if"; "in"; "include"; "inline";
   "inline_for_extraction"; "instance"; "introduce"; "irreducible"; "let";
   "logic"; "match"; "module"; "new"; "new_effect"; "layered_effect";
   "polymonadic_bind"; "polymonadic_subcomp"; "SMTPat"; "noextract"; "of";
   "open"; "opaque"; "private"; "range_of"; "rec"; "reifiable"; "reify";
   "reflectable"; "requires"; "returns"; "set_range_of"; "sub_effect";
   "synth"; "then"; "total"; "Tot"; "true"; "try"; "type"; "unfold";
   "unfoldable"; "val"; "when"; "with"; "_"; "Lemma"]%string.

Definition pulse_keywords : list string :=
  ["fn"; "fold"; "rewrite"; "each"; "mut"; "ghost"; "atomic";
   "show_proof_state"; "while"; "invariant"; "with_invariants"; "opens";
   "parallel"]%string.

(** [//.*\n] *)
Definition line_comment : regex :=
  Seq (Chr (ch "/")) (Seq (Chr (ch "/")) (Seq (Star Dot) (Chr newline))).

(** [\([*]([^*]|[*]+[^)])*[*]+\)] *)
Definition block_comment : regex :=
  Seq (Chr (ch "("))
   (Seq (Class [One (ch "*")])
     (Seq (Star (Alt (NotClass [One (ch "*")])
                     (Seq (Plus (Class [One (ch "*")]))
                          (NotClass [One (ch ")")]))))
       (Seq (Plus (Class [One (ch "*")])) (Chr (ch ")"))))).

(** [[a-zA-Z_0-9]+] *)
Definition fstar_ident : regex :=
  Plus (Class [Range (ch "a") (ch "z"); Range (ch "A") (ch "Z");
               One (ch "_"); Range (ch "0") (ch "9")]).

(** [[a-zA-Z_]+] *)
Definition pulse_ident : regex :=
  Plus (Class [Range (ch "a") (ch "z"); Range (ch "A") (ch "Z");
               One (ch "_")]).

Definition CustomLexer : lexer := {|
  name := "FStar";
  aliases := ["fstar"%string];
  filenames := ["*.fst"; "*.fsti"]%string;
  tokens :=
    [ (Regex (Chr (ch " ")), Text);
      (Regex (Chr newline), Text);
      (Regex (Chr carriage_return), Text);
      (Regex line_comment, Comment);
      (Regex block_comment, Comment);
      (Words fstar_keywords, Keyword);
      (Regex fstar_ident, Text);
      (Regex Dot, Text) ]
|}.

Definition PulseLexer : lexer := {|
  name := "Pulse";
  aliases := ["pulse"%string];
  filenames := ["*.fst"; "*.fsti"]%string;
  tokens :=
    [ (Regex (Chr (ch " ")), Text);
      (Regex (Chr newline), Text);
      (Regex (Chr carriage_return), Text);
      (Regex line_comment, Comment);
      (Regex block_comment, Comment);
      (Words fstar_keywords, Keyword);
      (Words pulse_keywords, Keyword);
      (Regex pulse_ident, Text);
      (Regex Dot, Text) ]
|}.


(** The two tokenizer variants of the specification. *)
Inductive dialect : Type := FStar | Pulse.

Definition lexer_of (d : dialect) : lexer :=
  match d with
  | FStar => CustomLexer
  | Pulse => PulseLexer
  end.

(** The keywords a variant recognises. *)
Definition keywords_of (d : dialect) : list string :=
  match d with
  | FStar => fstar_keywords
  | Pulse => fstar_keywords ++ pulse_keywords
  end.

(** ** The loop of [RegexLexer] *)

(** [strip_prefix w s]: [s] without its prefix [w], when [w] is one. *)
Fixpoint strip_prefix (w s : text) : option text :=
  match w, s with
  | [], _ => Some s
  | a :: w', b :: s' => if (a =? b)%N then strip_prefix w' s' else None
  | _ :: _, [] => None
  end.

(** A table for [\w] that accepts no code point above 127, for the closed
    instances at the end of the file: they are on ASCII text, where the table
    is never consulted. *)
Definition ascii_only : char -> bool := fun _ => false.

Section Engine.

(** Which code points above 127 are alphanumeric for Python's [\w]. *)
Variable unicode_alnum : char -> bool.

(** [\w] on [str] patterns: alphanumeric or underscore. *)
Definition is_word (c : char) : bool :=
  if (c <? 128)%N
  then in_class [Range (ch "0") (ch "9"); Range (ch "A") (ch "Z");
                 Range (ch "a") (ch "z"); One (ch "_")] c
  else unicode_alnum c.

Definition is_word_at (c : option char) : bool :=
  match c with
  | Some x => is_word x
  | None => false
  end.

(** [\b] between the character before and the character after a position
    (either may be missing at an end of the text). *)
Definition word_boundary (before after : option char) : bool :=
  xorb (is_word_at before) (is_word_at after).

(** [words(ws, suffix=r'\b')] at the start of [s]: the alternatives in order,
    each a literal followed by [\b].  The character before the boundary is
    the last one of the literal (no literal of the tables is empty). *)
Fixpoint words_match (ws : list text) (s : text) : option text :=
  match ws with
  | [] => None
  | w :: ws' =>
      match strip_prefix w s with
      | Some rest =>
          if word_boundary (last (map Some w) None) (hd_error rest)
          then Some rest
          else words_match ws' s
      | None => words_match ws' s
      end
  end.

(** One rule at the scan position: the matched text ([m.group()]) and the
    text from [m.end()] on. *)
Definition rule_match (p : pattern) (s : text) : option (text * text) :=
  match
    match p with
    | Regex r => match_prefix r s
    | Words ws => words_match (map str ws) s
    end
  with
  | Some rest => Some (firstn (length s - length rest) s, rest)
  | None => None
  end.

(** The [for] loop over the rules of the state: the first rule that matches. *)
Fixpoint first_match (rules : list rule) (s : text)
  : option (token_type * text * text) :=
  match rules with
  | [] => None
  | (p, ty) :: rules' =>
      match rule_match p s with
      | Some (w, rest) => Some (ty, w, rest)
      | None => first_match rules' s
      end
  end.

(** The [while] loop of [get_tokens_unprocessed], one iteration per unit of
    fuel; [None] when the fuel runs out before the loop ends.  Each iteration
    tries the rules on the text from the current offset on (no pattern of the
    tables looks behind the offset), yields the first match and moves past
    it.  Where no rule matches, the loop stops at the end of the text, and
    otherwise emits the character on its own, a newline as [Whitespace]
    ([Text] in older releases of Pygments) and anything else as [Error]; for
    the two tables that branch is never taken, as proved below. *)
Fixpoint scan (rules : list rule) (fuel : nat) (pos : nat) (s : text)
  : option (list token) :=
  match fuel with
  | O => None
  | S fuel' =>
      match first_match rules s with
      | Some (ty, w, rest) =>
          option_map (cons (pos, ty, w))
            (scan rules fuel' (pos + length w) rest)
      | None =>
          match s with
          | [] => Some []
          | c :: s' =>
              option_map
                (cons (pos, (if (c =? newline)%N then Whitespace else Error),
                       [c]))
                (scan rules fuel' (pos + 1) s')
          end
      end
  end.

Definition get_tokens_unprocessed (lx : lexer) (s : text)
  : option (list token) :=
  scan (tokens lx) (S (length s)) 0 s.

(** A non-empty text made of [\w] characters only. *)
Definition word_text (w : text) : bool :=
  match w with
  | [] => false
  | _ :: _ => forallb is_word w
  end.

(** The rule in the last position of a table. *)
Definition catch_all (lx : lexer) : rule := last (tokens lx) (Words [], Error).

(** A rule whose pattern cannot match the empty text. *)
Definition rule_progress (p : pattern) : bool :=
  match p with
  | Regex r => negb (nullable r)
  | Words ws => forallb (fun w => negb (String.eqb w "")) ws
  end.

(** The token types the rule tables name. *)
Definition table_type (ty : token_type) : bool :=
  match ty with
  | Text | Comment | Keyword => true
  | Whitespace | Error => false
  end.

(** Tokens that follow one another from offset [pos] on, each starting where
    the one before ended. *)
Fixpoint contiguous (pos : nat) (toks : list token) : Prop :=
  match toks with
  | [] => True
  | t :: toks' =>
      tok_pos t = pos /\ contiguous (pos + length (tok_text t)) toks'
  end.

(** A character class at a position that may be the end of the text. *)
Definition in_class_at (items : list class_item) (c : option char) : bool :=
  match c with
  | Some x => in_class items x
  | None => false
  end.

(** [occurs p s]: the text [p] occurs somewhere in [s]. *)
Fixpoint occurs (p s : text) : bool :=
  match strip_prefix p s with
  | Some _ => true
  | None =>
      match s with
      | [] => false
      | _ :: s' => occurs p s'
      end
  end.

(** [ends_with c s]: the last character of [s] is [c]. *)
Fixpoint ends_with (c : char) (s : text) : bool :=
  match s with
  | [] => false
  | [a] => (a =? c)%N
  | _ :: s' => ends_with c s'
  end.

(** The character class of a lexer's identifier rule. *)
Definition ident_class (d : dialect) : list class_item :=
  match d with
  | FStar => [Range (ch "a") (ch "z"); Range (ch "A") (ch "Z"); One (ch "_");
              Range (ch "0") (ch "9")]
  | Pulse => [Range (ch "a") (ch "z"); Range (ch "A") (ch "Z"); One (ch "_")]
  end.

(** A text without the digits [0] to [9]. *)
Definition digit_free (s : text) : bool :=
  forallb (fun c => negb (in_class [Range (ch "0") (ch "9")] c)) s.


(** Where a match of a table comes from: [origin d s ty w rest] lists, rule
    by rule, what the first match [(ty, w, rest)] at the start of [s] can
    be. *)
Inductive origin (d : dialect) (s : text)
  : token_type -> text -> text -> Prop :=
| OBlank c rest :
    c = ch " " \/ c = newline \/ c = carriage_return ->
    s = c :: rest -> origin d s Text [c] rest
| OLine b rest :
    forallb dot_accepts b = true ->
    s = (str "//" ++ b ++ [newline]) ++ rest ->
    origin d s Comment (str "//" ++ b ++ [newline]) rest
| OBlock b rest :
    s = (str "(*" ++ b ++ str "*)") ++ rest ->
    origin d s Comment (str "(*" ++ b ++ str "*)") rest
| OKeyword k rest :
    In k (keywords_of d) -> is_word_at (hd_error rest) = false ->
    s = str k ++ rest -> origin d s Keyword (str k) rest
| OIdent w rest :
    w <> [] -> forallb (in_class (ident_class d)) w = true ->
    in_class_at (ident_class d) (hd_error rest) = false ->
    s = w ++ rest -> origin d s Text w rest
| OOther c rest :
    in_class (ident_class d) c = false -> c <> newline ->
    c <> ch " " -> c <> carriage_return ->
    s = c :: rest -> origin d s Text [c] rest.

(** The tokens of a text, each with an origin, one after the other. *)
Inductive lexes (d : dialect) : nat -> text -> list token -> Prop :=
| LexNil pos : lexes d pos [] []
| LexCons pos s ty w rest toks :
    origin d s ty w rest ->
    lexes d (pos + length w) rest toks ->
    lexes d pos s ((pos, ty, w) :: toks).

(** [spelled ws w]: the text [w] is one of the words [ws]. *)
Definition spelled (ws : list string) (w : text) : bool :=
  existsb (fun k => match strip_prefix (str k) w with
                    | Some [] => true
                    | _ => false
                    end) ws.

(** A property of every two tokens that follow one another. *)
Fixpoint adjacent (P : token -> token -> Prop) (toks : list token) : Prop :=
  match toks with
  | t1 :: ((t2 :: _) as l) => P t1 t2 /\ adjacent P l
  | _ => True
  end.

(** The last character of a text, if any. *)
Definition last_char (w : text) : option char := last (map Some w) None.

(** ** Facts about the matcher *)

Lemma atom_sound p s k x :
  atom p s k = Some x ->
  exists c s', s = c :: s' /\ p c = true /\ k s' = Some x.
Proof.
  destruct s as [|c s']; simpl; [discriminate|].
  destruct (p c) eqn:E; [|discriminate].
  intros H. now exists c, s'.
Qed.

Lemma atom_ext p s k1 k2 :
  (forall s', k1 s' = k2 s') -> atom p s k1 = atom p s k2.
Proof.
  intros H. destruct s as [|c s']; simpl; [reflexivity|].
  now destruct (p c).
Qed.

Section Repeat.

Variable step : text -> (text -> option text) -> option text.
Variable lang : text -> Prop.

Hypothesis step_ext : forall s k1 k2,
  (forall s', k1 s' = k2 s') -> step s k1 = step s k2.

Hypothesis step_sound : forall s k x,
  step s k = Some x -> exists w s', s = w ++ s' /\ lang w /\ k s' = Some x.

Lemma repeat_greedy_ext fuel : forall s k1 k2,
  (forall s', k1 s' = k2 s') ->
  repeat_greedy step fuel s k1 = repeat_greedy step fuel s k2.
Proof.
  induction fuel as [|fuel IH]; intros s k1 k2 H; simpl; [apply H|].
  rewrite (H s).
  erewrite step_ext; [reflexivity|].
  intros s'. simpl. destruct (length s' <? length s)%nat; [|reflexivity].
  now apply IH.
Qed.

Lemma step_none s k : (forall s', k s' = None) -> step s k = None.
Proof.
  intros H. destruct (step s k) eqn:E; [|reflexivity].
  apply step_sound in E. destruct E as (w & s' & _ & _ & E).
  rewrite H in E. discriminate.
Qed.

(** Any fuel that covers the text gives the same answer. *)
Lemma repeat_greedy_fuel f1 : forall f2 s k,
  (length s <= f1)%nat -> (length s <= f2)%nat ->
  repeat_greedy step f1 s k = repeat_greedy step f2 s k.
Proof.
  induction f1 as [|f1 IH]; intros [|f2] s k H1 H2; simpl.
  - reflexivity.
  - rewrite step_none; [reflexivity|].
    intros s'. destruct (Nat.ltb_spec (length s') (length s)); [lia|reflexivity].
  - rewrite step_none; [reflexivity|].
    intros s'. destruct (Nat.ltb_spec (length s') (length s)); [lia|reflexivity].
  - erewrite step_ext; [reflexivity|].
    intros s'. simpl.
    destruct (Nat.ltb_spec (length s') (length s)); [|reflexivity].
    apply IH; lia.
Qed.

Lemma repeat_greedy_leave fuel s k :
  k s <> None -> repeat_greedy step fuel s k <> None.
Proof.
  intros H. destruct fuel; simpl; [exact H|].
  destruct (step s _); [discriminate|exact H].
Qed.

End Repeat.

Lemma rmatch_ext r : forall s k1 k2,
  (forall s', k1 s' = k2 s') -> rmatch r s k1 = rmatch r s k2.
Proof.
  induction r; intros s k1 k2 H; simpl; try (now apply atom_ext).
  - apply IHr1. intros s1. now apply IHr2.
  - rewrite (IHr1 s k1 k2 H), (IHr2 s k1 k2 H). reflexivity.
  - now apply repeat_greedy_ext.
  - apply IHr. intros s1. now apply repeat_greedy_ext.
Qed.

Lemma repeat_greedy_sound r
  (IH : forall s k x, rmatch r s k = Some x ->
        exists w s', s = w ++ s' /\ matches r w /\ k s' = Some x) fuel :
  forall s k x,
  repeat_greedy (rmatch r) fuel s k = Some x ->
  exists w s', s = w ++ s' /\ matches (Star r) w /\ k s' = Some x.
Proof.
  induction fuel as [|fuel IHf]; intros s k x; simpl.
  - intros H. exists [], s. repeat split; [constructor|exact H].
  - destruct (rmatch r s _) as [y|] eqn:E.
    + intros Hx. injection Hx as ->.
      apply IH in E. destruct E as (w1 & s1 & -> & Hw1 & E).
      destruct (Nat.ltb_spec (length s1) (length (w1 ++ s1))) as [Hlt|];
        [|discriminate].
      apply IHf in E. destruct E as (w2 & s2 & -> & Hw2 & E).
      exists (w1 ++ w2), s2. rewrite app_assoc. repeat split; [|exact E].
      constructor; [exact Hw1| |exact Hw2].
      intros ->. simpl in Hlt. lia.
    + intros H. exists [], s. repeat split; [constructor|exact H].
Qed.

(** Soundness: an answer of the matcher comes from the continuation, after a
    word the pattern denotes. *)
Lemma rmatch_sound r : forall s k x,
  rmatch r s k = Some x ->
  exists w s', s = w ++ s' /\ matches r w /\ k s' = Some x.
Proof.
  induction r; intros s k x H; simpl in H.
  - apply atom_sound in H. destruct H as (a & s' & -> & Ha & H).
    apply N.eqb_eq in Ha. subst a. exists [c], s'. repeat split; [constructor|exact H].
  - apply atom_sound in H. destruct H as (a & s' & -> & Ha & H).
    exists [a], s'. repeat split; [now constructor|exact H].
  - apply atom_sound in H. destruct H as (a & s' & -> & Ha & H).
    exists [a], s'. repeat split; [now constructor|exact H].
  - apply atom_sound in H. destruct H as (a & s' & -> & Ha & H).
    apply negb_true_iff in Ha.
    exists [a], s'. repeat split; [now constructor|exact H].
  - apply IHr1 in H. destruct H as (w1 & s1 & -> & Hw1 & H).
    apply IHr2 in H. destruct H as (w2 & s2 & -> & Hw2 & H).
    exists (w1 ++ w2), s2. rewrite app_assoc.
    repeat split; [now constructor|exact H].
  - destruct (rmatch r1 s k) as [y|] eqn:E.
    + injection H as ->. apply IHr1 in E.
      destruct E as (w & s' & -> & Hw & E).
      exists w, s'. repeat split; [now apply MAltL|exact E].
    + apply IHr2 in H. destruct H as (w & s' & -> & Hw & H).
      exists w, s'. repeat split; [now apply MAltR|exact H].
  - now apply (repeat_greedy_sound r IHr) in H.
  - apply IHr in H. destruct H as (w1 & s1 & -> & Hw1 & H).
    apply (repeat_greedy_sound r IHr) in H.
    destruct H as (w2 & s2 & -> & Hw2 & H).
    exists (w1 ++ w2), s2. rewrite app_assoc.
    repeat split; [now constructor|exact H].
Qed.

(** Completeness: when the pattern denotes a prefix after which the
    continuation succeeds, the matcher succeeds (possibly with a match of
    higher priority). *)
Lemma rmatch_complete r w :
  matches r w ->
  forall s' k, k s' <> None -> rmatch r (w ++ s') k <> None.
Proof.
  induction 1; intros s' k Hk; simpl.
  - now rewrite N.eqb_refl.
  - now rewrite H.
  - now rewrite H.
  - now rewrite H.
  - rewrite <- app_assoc. apply IHmatches1. now apply IHmatches2.
  - destruct (rmatch r1 (w ++ s') k) eqn:E; [discriminate|].
    now apply IHmatches in E.
  - destruct (rmatch r1 (w ++ s') k); [discriminate|]. now apply IHmatches.
  - now apply repeat_greedy_leave.
  - destruct w1 as [|a w1]; [congruence|]. simpl.
    match goal with
    | |- match ?m with _ => _ end <> None =>
        destruct m eqn:E; [discriminate|]
    end.
    exfalso. revert E. change (a :: w1 ++ w2 ++ s') with ((a :: w1) ++ w2 ++ s').
    rewrite <- app_assoc.
    apply IHmatches1. cbv beta.
    match goal with
    | |- context [(?x <? ?y)%nat] =>
        destruct (Nat.ltb_spec x y) as [Hlt|Hge]
    end.
    2:{ simpl in Hge. rewrite !length_app in Hge. simpl in Hge. lia. }
    rewrite (repeat_greedy_fuel (rmatch r) (matches r) (rmatch_ext r)
               (rmatch_sound r) _ (length (w2 ++ s')));
      [exact (IHmatches2 s' k Hk)| |lia].
    rewrite !length_app. lia.
  - rewrite <- app_assoc. apply IHmatches1. now apply IHmatches2.
Qed.

(** A pattern that is not nullable denotes no empty word. *)
Lemma matches_nonempty r w :
  matches r w -> nullable r = false -> w <> [].
Proof.
  induction 1; simpl; intros Hn; try discriminate.
  - apply andb_false_iff in Hn. intros E. apply app_eq_nil in E.
    destruct E as [-> ->]. destruct Hn as [Hn|Hn]; [now apply IHmatches1|now apply IHmatches2].
  - apply orb_false_iff in Hn. now apply IHmatches.
  - apply orb_false_iff in Hn. now apply IHmatches.
  - intros E. apply app_eq_nil in E. now apply IHmatches1.
Qed.

(** ** Facts about rules and the loop *)

Lemma strip_prefix_spec w : forall s rest,
  strip_prefix w s = Some rest <-> s = w ++ rest.
Proof.
  induction w as [|a w IH]; intros s rest; simpl.
  - split; [now intros [= ->]|now intros ->].
  - destruct s as [|b s]; [split; discriminate|].
    destruct (N.eqb_spec a b) as [->|Hab].
    + rewrite IH. split; [now intros ->|now intros [= ->]].
    + split; [discriminate|intros [= E _]; congruence].
Qed.

Lemma firstn_suffix (w rest : text) :
  firstn (length (w ++ rest) - length rest) (w ++ rest) = w.
Proof.
  rewrite length_app, Nat.add_sub. rewrite firstn_app, Nat.sub_diag, firstn_all.
  simpl. apply app_nil_r.
Qed.

Lemma words_match_sound ws : forall s rest,
  words_match ws s = Some rest ->
  exists w, In w ws /\ s = w ++ rest /\
            word_boundary (last (map Some w) None) (hd_error rest) = true.
Proof.
  induction ws as [|w ws IH]; intros s rest; simpl; [discriminate|].
  destruct (strip_prefix w s) as [r|] eqn:E.
  - destruct (word_boundary _ _) eqn:B.
    + intros [= ->]. apply strip_prefix_spec in E. eauto.
    + intros H. apply IH in H. destruct H as (w' & ? & ? & ?). eauto.
  - intros H. apply IH in H. destruct H as (w' & ? & ? & ?). eauto.
Qed.

Lemma str_nonempty w : String.eqb w "" = false -> str w <> [].
Proof. destruct w; [discriminate|]. discriminate. Qed.

(** What a rule matched is a prefix of the text, followed by what it left;
    a progressing rule matched at least one character. *)
Lemma rule_match_split p s w rest :
  rule_match p s = Some (w, rest) -> s = w ++ rest.
Proof.
  unfold rule_match. destruct p as [r|ws].
  - destruct (match_prefix r s) as [y|] eqn:E; [|discriminate].
    apply rmatch_sound in E. destruct E as (w' & s' & -> & _ & [= ->]).
    rewrite firstn_suffix. now intros [= -> ->].
  - destruct (words_match _ s) as [y|] eqn:E; [|discriminate].
    apply words_match_sound in E. destruct E as (w' & _ & -> & _).
    rewrite firstn_suffix. now intros [= -> ->].
Qed.

Lemma rule_match_nonempty p s w rest :
  rule_progress p = true -> rule_match p s = Some (w, rest) -> w <> [].
Proof.
  unfold rule_match. destruct p as [r|ws]; simpl; intros Hp.
  - destruct (match_prefix r s) as [y|] eqn:E; [|discriminate].
    apply rmatch_sound in E. destruct E as (w' & s' & -> & Hm & [= ->]).
    rewrite firstn_suffix. intros [= <- _].
    apply (matches_nonempty _ _ Hm). now apply negb_true_iff.
  - destruct (words_match _ s) as [y|] eqn:E; [|discriminate].
    apply words_match_sound in E. destruct E as (w' & Hin & -> & _).
    rewrite firstn_suffix. intros [= <- _].
    apply in_map_iff in Hin. destruct Hin as (k & <- & Hin).
    rewrite forallb_forall in Hp. apply str_nonempty.
    apply negb_true_iff. now apply Hp.
Qed.

Lemma first_match_inv rules : forall s ty w rest,
  first_match rules s = Some (ty, w, rest) ->
  exists p, In (p, ty) rules /\ rule_match p s = Some (w, rest).
Proof.
  induction rules as [|[p ty'] rules IH]; intros s ty w rest; simpl;
    [discriminate|].
  destruct (rule_match p s) as [[w' rest']|] eqn:E.
  - intros [= -> -> ->]. eauto.
  - intros H. apply IH in H. destruct H as (q & ? & ?). eauto.
Qed.

Lemma first_match_hit rules : forall s p ty,
  In (p, ty) rules -> rule_match p s <> None -> first_match rules s <> None.
Proof.
  induction rules as [|[q ty'] rules IH]; intros s p ty Hin Hm; simpl;
    [contradiction|].
  destruct (rule_match q s) as [[w rest]|] eqn:E; [discriminate|].
  destruct Hin as [[= -> ->]|Hin]; [congruence|eauto].
Qed.

Section Loop.

Variable rules : list rule.

Hypothesis rules_progress :
  forall p ty, In (p, ty) rules -> rule_progress p = true.

Lemma first_match_progress s ty w rest :
  first_match rules s = Some (ty, w, rest) ->
  s = w ++ rest /\ w <> [] /\ (length rest < length s)%nat.
Proof.
  intros H. apply first_match_inv in H. destruct H as (p & Hin & H).
  pose proof (rule_match_split _ _ _ _ H) as ->.
  pose proof (rule_match_nonempty _ _ _ _ (rules_progress _ _ Hin) H) as Hw.
  repeat split; [exact Hw|].
  rewrite length_app. destruct w; [congruence|simpl; lia].
Qed.

(** Fuel beyond the length of the text changes nothing. *)
Lemma scan_fuel f1 : forall f2 pos s,
  (length s < f1)%nat -> (length s < f2)%nat ->
  scan rules f1 pos s = scan rules f2 pos s.
Proof.
  induction f1 as [|f1 IH]; intros [|f2] pos s H1 H2; try lia. simpl.
  destruct (first_match rules s) as [[[ty w] rest]|] eqn:E.
  - apply first_match_progress in E. destruct E as (_ & _ & Hlt).
    rewrite (IH f2 _ rest); [reflexivity|lia|lia].
  - destruct s as [|c s']; [reflexivity|]. simpl in *.
    rewrite (IH f2 _ s'); [reflexivity|lia|lia].
Qed.

Hypothesis rules_cover : forall c s, first_match rules (c :: s) <> None.

(** With rules that progress and cover every character, the loop ends within
    [length s + 1] iterations, and its tokens are non-empty, typed by the
    table, at most [length s] many, and spell the text. *)
Lemma scan_total fuel : forall pos s,
  (length s < fuel)%nat ->
  exists toks,
    scan rules fuel pos s = Some toks /\
    concat (map tok_text toks) = s /\
    contiguous pos toks /\
    Forall (fun t => tok_text t <> [] /\ exists p, In (p, tok_type t) rules)
           toks /\
    (length toks <= length s)%nat.
Proof.
  induction fuel as [|fuel IH]; intros pos s Hlen; [lia|]. simpl.
  destruct (first_match rules s) as [[[ty w] rest]|] eqn:E.
  - pose proof (first_match_progress _ _ _ _ E) as (-> & Hw & Hlt).
    apply first_match_inv in E. destruct E as (p & Hin & _).
    destruct (IH (pos + length w)%nat rest) as (toks & -> & Hcat & Hpos & Hall & Hn);
      [lia|].
    exists ((pos, ty, w) :: toks). simpl. rewrite Hcat.
    repeat split; [exact Hpos|constructor; [simpl; eauto|exact Hall]|].
    rewrite length_app. destruct w; [congruence|simpl; lia].
  - destruct s as [|c s']; [|now apply rules_cover in E].
    exists []. simpl. repeat split; [constructor|lia].
Qed.

End Loop.

(** ** The two tables are well formed *)

Lemma lexer_progress d p ty :
  In (p, ty) (tokens (lexer_of d)) -> rule_progress p = true.
Proof.
  intros H.
  assert (A : forallb (fun r => rule_progress (fst r)) (tokens (lexer_of d))
          = true) by (destruct d; reflexivity).
  rewrite forallb_forall in A. exact (A _ H).
Qed.

Lemma lexer_types d p ty :
  In (p, ty) (tokens (lexer_of d)) -> table_type ty = true.
Proof.
  intros H.
  assert (A : forallb (fun r => table_type (snd r)) (tokens (lexer_of d))
          = true) by (destruct d; reflexivity).
  rewrite forallb_forall in A. exact (A _ H).
Qed.

Lemma lexer_repeats d :
  forallb (fun r => match fst r with
                    | Regex x => repeats_consume x
                    | Words _ => true
                    end) (tokens (lexer_of d)) = true.
Proof. destruct d; reflexivity. Qed.

Lemma regex_rule_hit r s rest :
  match_prefix r s = Some rest ->
  rule_match (Regex r) s = Some (firstn (length s - length rest) s, rest).
Proof. unfold rule_match. now intros ->. Qed.

Lemma regex_rule_miss r s :
  match_prefix r s = None -> rule_match (Regex r) s = None.
Proof. unfold rule_match. now intros ->. Qed.

Lemma dot_rule c s :
  c <> newline -> rule_match (Regex Dot) (c :: s) = Some ([c], s).
Proof.
  intros Hc. rewrite (@regex_rule_hit Dot (c :: s) s).
  - change (c :: s) with ([c] ++ s). now rewrite firstn_suffix.
  - unfold match_prefix. cbn [rmatch atom]. unfold dot_accepts.
    now destruct (N.eqb_spec c newline).
Qed.

Lemma newline_rule s :
  rule_match (Regex (Chr newline)) (newline :: s) = Some ([newline], s).
Proof.
  rewrite (@regex_rule_hit (Chr newline) (newline :: s) s).
  - change (newline :: s) with ([newline] ++ s). now rewrite firstn_suffix.
  - reflexivity.
Qed.

Ltac in_table := simpl; repeat (first [left; reflexivity | right]).

(** Some rule matches at every position before the end of the text: the
    newline rule at a newline, the last rule anywhere else. *)
Lemma lexer_cover d c s : first_match (tokens (lexer_of d)) (c :: s) <> None.
Proof.
  destruct (N.eq_dec c newline) as [->|Hc].
  - apply first_match_hit with (p := Regex (Chr newline)) (ty := Text).
    + destruct d; in_table.
    + now rewrite newline_rule.
  - apply first_match_hit with (p := Regex Dot) (ty := Text).
    + destruct d; in_table.
    + now rewrite dot_rule.
Qed.

Lemma lexer_total d s :
  exists toks,
    get_tokens_unprocessed (lexer_of d) s = Some toks /\
    concat (map tok_text toks) = s /\
    contiguous 0 toks /\
    Forall (fun t => tok_text t <> [] /\ table_type (tok_type t) = true)
           toks /\
    (length toks <= length s)%nat.
Proof.
  destruct (@scan_total (tokens (lexer_of d)) (@lexer_progress d)
              (lexer_cover d) (S (length s)) 0 s) as (toks & H & Hc & Hp & Ha & Hn);
    [lia|].
  exists toks. repeat split; try assumption.
  eapply Forall_impl; [|exact Ha]. simpl.
  intros t [Ht [p Hin]]. split; [exact Ht|]. now apply lexer_types in Hin.
Qed.

(** ** Keywords and word boundaries *)

Lemma ch_inj a b : ch a = ch b -> a = b.
Proof.
  unfold ch. intros H. rewrite <- (ascii_N_embedding a), <- (ascii_N_embedding b).
  now rewrite H.
Qed.

Lemma str_inj k1 k2 : str k1 = str k2 -> k1 = k2.
Proof.
  unfold str. intros H.
  rewrite <- (string_of_list_ascii_of_string k1),
          <- (string_of_list_ascii_of_string k2).
  f_equal. revert H.
  generalize (list_ascii_of_string k1) (list_ascii_of_string k2).
  induction l as [|a l IH]; intros [|b l']; simpl; try discriminate; auto.
  intros [= E1 E2]. apply ch_inj in E1. f_equal; auto.
Qed.

Lemma word_text_inv w :
  word_text w = true -> w <> [] /\ forallb is_word w = true.
Proof. destruct w; [discriminate|]. simpl. intros H. split; [discriminate|exact H]. Qed.

Lemma last_word w :
  word_text w = true -> is_word_at (last (map Some w) None) = true.
Proof.
  destruct w as [|a w]; [discriminate|]. unfold word_text.
  revert a. induction w as [|b w IH]; intros a H.
  - simpl in *. now rewrite andb_true_r in H.
  - change (forallb is_word (a :: b :: w)) with
      (is_word a && forallb is_word (b :: w)) in H.
    apply andb_true_iff in H. destruct H as [_ H].
    change (last (map Some (a :: b :: w)) None) with
      (last (map Some (b :: w)) None).
    now apply IH.
Qed.

(** After a word, [\b] holds exactly when no word character follows. *)
Lemma boundary_after_word w rest :
  word_text w = true ->
  word_boundary (last (map Some w) None) (hd_error rest)
  = negb (is_word_at (hd_error rest)).
Proof.
  intros H. unfold word_boundary. rewrite (@last_word w H).
  now destruct (is_word_at _).
Qed.

(** A text splits in one way only into word characters and a remainder that
    does not start with one. *)
Lemma word_run_unique w1 : forall w2 r1 r2,
  forallb is_word w1 = true -> forallb is_word w2 = true ->
  is_word_at (hd_error r1) = false -> is_word_at (hd_error r2) = false ->
  w1 ++ r1 = w2 ++ r2 -> w1 = w2 /\ r1 = r2.
Proof.
  induction w1 as [|a w1 IH]; intros [|b w2] r1 r2 H1 H2 N1 N2 E; simpl in *.
  - now split.
  - subst r1. simpl in N1. apply andb_true_iff in H2. destruct H2. congruence.
  - subst r2. simpl in N2. apply andb_true_iff in H1. destruct H1. congruence.
  - injection E as -> E. apply andb_true_iff in H1. apply andb_true_iff in H2.
    destruct H1 as [_ H1], H2 as [_ H2].
    destruct (IH w2 r1 r2 H1 H2 N1 N2 E) as [-> ->]. now split.
Qed.

(** [words] finds a literal of the list that ends at a word boundary,
    whatever the order of the list. *)
Lemma words_match_hit ws w rest :
  (forall w', In w' ws -> word_text w' = true) ->
  In w ws -> is_word_at (hd_error rest) = false ->
  words_match ws (w ++ rest) = Some rest.
Proof.
  intros Hall Hin Hrest. pose proof (Hall _ Hin) as Hw.
  revert Hin Hall.
  induction ws as [|w0 l IH]; intros Hin Hall; [contradiction|].
  simpl. assert (Hw0 : word_text w0 = true) by (apply Hall; now left).
  assert (Hl : forall w', In w' l -> word_text w' = true)
    by (intros; apply Hall; now right).
  destruct (strip_prefix w0 (w ++ rest)) as [r0|] eqn:E.
  - apply strip_prefix_spec in E. rewrite (@boundary_after_word w0 r0 Hw0).
    destruct (is_word_at (hd_error r0)) eqn:B; simpl.
    + destruct Hin as [->|Hin]; [|now apply IH].
      apply app_inv_head in E. subst r0. congruence.
    + apply word_text_inv in Hw, Hw0.
      destruct (@word_run_unique w w0 rest r0) as [_ ->]; tauto.
  - destruct Hin as [->|Hin]; [|now apply IH].
    assert (A : strip_prefix w (w ++ rest) = Some rest)
      by now apply strip_prefix_spec.
    congruence.
Qed.

(** What [words] matches does not depend on the order of the list: Pygments
    sorts and factors the literals into one pattern, which changes nothing
    here. *)
Lemma words_match_spec ws s rest :
  (forall w, In w ws -> word_text w = true) ->
  words_match ws s = Some rest <->
  exists w, In w ws /\ s = w ++ rest /\ is_word_at (hd_error rest) = false.
Proof.
  intros Hall. split.
  - intros H. apply words_match_sound in H. destruct H as (w & Hin & -> & B).
    rewrite (boundary_after_word w rest (Hall _ Hin)) in B.
    apply negb_true_iff in B. eauto.
  - intros (w & Hin & -> & B). now apply words_match_hit.
Qed.

(** [words] does not match a whole word that is not in the list. *)
Lemma words_match_miss ws w rest :
  (forall w', In w' ws -> word_text w' = true) ->
  word_text w = true -> ~ In w ws -> is_word_at (hd_error rest) = false ->
  words_match ws (w ++ rest) = None.
Proof.
  intros ws_words Hw Hnin Hrest.
  destruct (words_match ws (w ++ rest)) as [r|] eqn:E; [|reflexivity].
  apply words_match_sound in E. destruct E as (w' & Hin & E & B).
  pose proof (ws_words _ Hin) as Hw'.
  rewrite (@boundary_after_word w' r Hw') in B. apply negb_true_iff in B.
  apply word_text_inv in Hw, Hw'.
  destruct (@word_run_unique w w' rest r) as [-> _]; tauto.
Qed.

(** [words] does not match a literal that a word character follows. *)
Lemma words_match_inside ws w c rest r :
  (forall w', In w' ws -> word_text w' = true) ->
  words_match ws (w ++ c :: rest) = Some r ->
  is_word c = true -> r <> c :: rest.
Proof.
  intros ws_words E Hc ->. apply words_match_sound in E.
  destruct E as (w' & Hin & E & B). apply app_inv_tail in E. subst w'.
  rewrite (@boundary_after_word w (c :: rest) (ws_words _ Hin)) in B. simpl in B.
  rewrite Hc in B. discriminate.
Qed.

Lemma fstar_keywords_words w :
  In w (map str fstar_keywords) -> word_text w = true.
Proof.
  assert (A : forallb word_text (map str fstar_keywords) = true)
    by (vm_compute; reflexivity).
  rewrite forallb_forall in A. apply A.
Qed.

Lemma pulse_keywords_words w :
  In w (map str pulse_keywords) -> word_text w = true.
Proof.
  assert (A : forallb word_text (map str pulse_keywords) = true)
    by (vm_compute; reflexivity).
  rewrite forallb_forall in A. apply A.
Qed.

(** No Pulse keyword is an FStar keyword. *)
Lemma pulse_keywords_new k :
  In k pulse_keywords -> ~ In (str k) (map str fstar_keywords).
Proof.
  intros Hk Hin. apply in_map_iff in Hin. destruct Hin as (k' & E & Hin).
  apply str_inj in E. subst k'.
  assert (A : forallb (fun p => negb (existsb (String.eqb p) fstar_keywords))
                pulse_keywords = true) by (vm_compute; reflexivity).
  rewrite forallb_forall in A. specialize (A _ Hk).
  apply negb_true_iff in A.
  assert (B : existsb (String.eqb k) fstar_keywords = true)
    by (apply existsb_exists; exists k; split; [exact Hin|apply String.eqb_refl]).
  congruence.
Qed.

(** ** The rules one by one *)

Lemma chr_rule_miss c a s :
  (a =? c)%N = false -> rule_match (Regex (Chr c)) (a :: s) = None.
Proof.
  intros H. apply regex_rule_miss. unfold match_prefix. cbn [rmatch atom].
  now rewrite H.
Qed.

Lemma line_comment_first a s :
  (a =? ch "/")%N = false -> rule_match (Regex line_comment) (a :: s) = None.
Proof.
  intros H. apply regex_rule_miss. unfold match_prefix, line_comment.
  cbn [rmatch atom]. now rewrite H.
Qed.

Lemma block_comment_first a s :
  (a =? ch "(")%N = false -> rule_match (Regex block_comment) (a :: s) = None.
Proof.
  intros H. apply regex_rule_miss. unfold match_prefix, block_comment.
  cbn [rmatch atom]. now rewrite H.
Qed.

Lemma word_char_neq a c :
  is_word a = true -> is_word c = false -> (a =? c)%N = false.
Proof. intros Ha Hc. destruct (N.eqb_spec a c); [congruence|reflexivity]. Qed.

(** At a word character the five leading rules of either table fail. *)
Lemma first_match_at_word d a s :
  is_word a = true ->
  first_match (tokens (lexer_of d)) (a :: s)
  = first_match (skipn 5 (tokens (lexer_of d))) (a :: s).
Proof.
  intros Ha.
  assert (H1 : (a =? ch " ")%N = false) by now apply word_char_neq.
  assert (H2 : (a =? newline)%N = false) by now apply word_char_neq.
  assert (H3 : (a =? carriage_return)%N = false) by now apply word_char_neq.
  assert (H4 : (a =? ch "/")%N = false) by now apply word_char_neq.
  assert (H5 : (a =? ch "(")%N = false) by now apply word_char_neq.
  destruct d; cbn [lexer_of tokens CustomLexer PulseLexer skipn];
    cbn [first_match];
    rewrite !chr_rule_miss, line_comment_first, block_comment_first
      by assumption; reflexivity.
Qed.

(** A greedy run over a character class stops where the class does. *)
Lemma class_run items rest k x w : forall fuel,
  (length (w ++ rest) <= fuel)%nat ->
  forallb (in_class items) w = true ->
  in_class_at items (hd_error rest) = false ->
  k rest = Some x ->
  repeat_greedy (rmatch (Class items)) fuel (w ++ rest) k = Some x.
Proof.
  induction w as [|a w IH]; intros fuel Hf Hw Hr Hk.
  - destruct fuel; [exact Hk|].
    destruct rest as [|c rest]; cbn [repeat_greedy app rmatch atom];
      [exact Hk|].
    cbn [in_class_at hd_error] in Hr. now rewrite Hr.
  - destruct fuel; [simpl in Hf; lia|].
    simpl in Hw. apply andb_true_iff in Hw. destruct Hw as [Ha Hw].
    cbn [repeat_greedy app rmatch atom]. rewrite Ha.
    destruct (Nat.ltb_spec (length (w ++ rest)) (length (a :: w ++ rest)))
      as [_|Hge]; [|simpl in Hge; lia].
    rewrite IH; [reflexivity| |exact Hw|exact Hr|exact Hk]. simpl in Hf. lia.
Qed.

(** A greedy [[...]+] takes the whole run of the class when the continuation
    succeeds after it. *)
Lemma class_plus_run items rest k x w :
  w <> [] -> forallb (in_class items) w = true ->
  in_class_at items (hd_error rest) = false ->
  k rest = Some x ->
  rmatch (Plus (Class items)) (w ++ rest) k = Some x.
Proof.
  intros Hne Hw Hr Hk. destruct w as [|a w]; [congruence|].
  simpl in Hw. apply andb_true_iff in Hw. destruct Hw as [Ha Hw].
  cbn [app rmatch atom]. rewrite Ha.
  now apply class_run.
Qed.

Lemma class_plus_rule items w rest :
  w <> [] -> forallb (in_class items) w = true ->
  in_class_at items (hd_error rest) = false ->
  rule_match (Regex (Plus (Class items))) (w ++ rest) = Some (w, rest).
Proof.
  intros Hne Hw Hr.
  rewrite (@regex_rule_hit _ (w ++ rest) rest); [now rewrite firstn_suffix|].
  unfold match_prefix. now apply class_plus_run.
Qed.

Ltac class_cases :=
  unfold is_word, in_class, in_item, existsb, ch; simpl N_of_ascii;
  repeat match goal with
         | |- context [(?a <=? ?b)%N] => destruct (N.leb_spec a b)
         | |- context [(?a <? ?b)%N] => destruct (N.ltb_spec a b)
         | |- context [(?a =? ?b)%N] => destruct (N.eqb_spec a b)
         end; simpl; try reflexivity; try discriminate; try lia.

(** The characters of either identifier class are word characters. *)
Lemma fstar_class_word c :
  in_class [Range (ch "a") (ch "z"); Range (ch "A") (ch "Z"); One (ch "_");
            Range (ch "0") (ch "9")] c = true -> is_word c = true.
Proof. class_cases. Qed.

Lemma pulse_class_word c :
  in_class [Range (ch "a") (ch "z"); Range (ch "A") (ch "Z"); One (ch "_")] c
  = true -> is_word c = true.
Proof. class_cases. Qed.

Lemma class_at_word items c :
  (forall x, in_class items x = true -> is_word x = true) ->
  is_word_at c = false -> in_class_at items c = false.
Proof.
  intros H Hc. destruct c as [x|]; [|reflexivity]. simpl in *.
  destruct (in_class items x) eqn:E; [|reflexivity].
  apply H in E. congruence.
Qed.

(** The loop, one iteration unfolded at a position where a rule matches. *)
Lemma first_token d s ty w rest :
  first_match (tokens (lexer_of d)) s = Some (ty, w, rest) ->
  exists toks,
    get_tokens_unprocessed (lexer_of d) s = Some ((0, ty, w) :: toks) /\
    scan (tokens (lexer_of d)) (S (length rest)) (length w) rest = Some toks.
Proof.
  intros E.
  destruct (@scan_total (tokens (lexer_of d)) (@lexer_progress d)
              (lexer_cover d) (S (length rest)) (length w) rest)
    as (toks & H & _); [lia|].
  exists toks. split; [|exact H].
  unfold get_tokens_unprocessed. cbn [scan]. rewrite E.
  apply first_match_progress in E; [|apply lexer_progress].
  destruct E as (_ & _ & Hlt).
  rewrite (@scan_fuel (tokens (lexer_of d)) (@lexer_progress d)
             (length s) (S (length rest))); [|lia|lia].
  rewrite Nat.add_0_l, H. reflexivity.
Qed.

Lemma first_match_at_word_text d w rest :
  word_text w = true ->
  first_match (tokens (lexer_of d)) (w ++ rest)
  = first_match (skipn 5 (tokens (lexer_of d))) (w ++ rest).
Proof.
  destruct w as [|a w]; [discriminate|]. simpl. intros H.
  apply andb_true_iff in H. destruct H as [Ha _].
  now apply first_match_at_word.
Qed.

Lemma words_rule_hit ws k rest :
  (forall w, In w (map str ws) -> word_text w = true) ->
  In k ws -> is_word_at (hd_error rest) = false ->
  rule_match (Words ws) (str k ++ rest) = Some (str k, rest).
Proof.
  intros Hall Hin Hrest. unfold rule_match.
  rewrite (words_match_hit (map str ws) (str k) rest Hall);
    [now rewrite firstn_suffix|now apply in_map|exact Hrest].
Qed.

Lemma words_rule_miss ws w rest :
  (forall w', In w' (map str ws) -> word_text w' = true) ->
  word_text w = true -> ~ In w (map str ws) ->
  is_word_at (hd_error rest) = false ->
  rule_match (Words ws) (w ++ rest) = None.
Proof.
  intros Hall Hw Hnin Hrest. unfold rule_match.
  now rewrite (words_match_miss (map str ws) w rest Hall Hw Hnin Hrest).
Qed.

(** A keyword of the lexer that no word character follows is matched by
    the keyword rule ([words]), whatever comes after. *)
Lemma keyword_first_match d k rest :
  In k (keywords_of d) -> is_word_at (hd_error rest) = false ->
  first_match (tokens (lexer_of d)) (str k ++ rest)
  = Some (Keyword, str k, rest).
Proof.
  intros Hin Hrest.
  assert (Hw : word_text (str k) = true).
  { destruct d; cbn [keywords_of] in Hin.
    - apply fstar_keywords_words. now apply in_map.
    - apply in_app_or in Hin. destruct Hin as [Hin|Hin].
      + apply fstar_keywords_words. now apply in_map.
      + apply pulse_keywords_words. now apply in_map. }
  rewrite (first_match_at_word_text d _ _ Hw).
  destruct d; cbn [lexer_of tokens CustomLexer PulseLexer skipn first_match];
    cbn [keywords_of] in Hin.
  - now rewrite (words_rule_hit _ _ _ fstar_keywords_words Hin Hrest).
  - apply in_app_or in Hin. destruct Hin as [Hin|Hin].
    + now rewrite (words_rule_hit _ _ _ fstar_keywords_words Hin Hrest).
    + rewrite (words_rule_miss _ _ _ fstar_keywords_words Hw
                 (pulse_keywords_new _ Hin) Hrest).
      now rewrite (words_rule_hit _ _ _ pulse_keywords_words Hin Hrest).
Qed.

(** A Pulse keyword that no word character follows is, for the FStar lexer,
    an identifier: the identifier rule matches it as [Text]. *)
Lemma pulse_keyword_fstar k rest :
  In k pulse_keywords -> is_word_at (hd_error rest) = false ->
  rule_match (Words fstar_keywords) (str k ++ rest) = None /\
  rule_match (Regex fstar_ident) (str k ++ rest) = Some (str k, rest) /\
  first_match (tokens CustomLexer) (str k ++ rest) = Some (Text, str k, rest).
Proof.
  intros Hin Hrest.
  assert (Hw : word_text (str k) = true)
    by (apply pulse_keywords_words; now apply in_map).
  assert (H1 : rule_match (Words fstar_keywords) (str k ++ rest) = None)
    by exact (words_rule_miss _ _ _ fstar_keywords_words Hw
                (pulse_keywords_new _ Hin) Hrest).
  assert (H2 : rule_match (Regex fstar_ident) (str k ++ rest)
               = Some (str k, rest)).
  { apply class_plus_rule.
    - now apply word_text_inv in Hw.
    - assert (A : forallb (fun p =>
                    forallb (in_class [Range (ch "a") (ch "z");
                                       Range (ch "A") (ch "Z"); One (ch "_");
                                       Range (ch "0") (ch "9")]) (str p))
                    pulse_keywords = true) by (vm_compute; reflexivity).
      rewrite forallb_forall in A. now apply A.
    - apply class_at_word; [exact fstar_class_word|exact Hrest]. }
  repeat split; [exact H1|exact H2|].
  rewrite (first_match_at_word_text FStar _ _ Hw).
  cbn [lexer_of tokens CustomLexer skipn first_match].
  now rewrite H1, H2.
Qed.

Lemma first_match_end d : first_match (tokens (lexer_of d)) [] = None.
Proof. destruct d; reflexivity. Qed.

(** A single character that is not a word character is one [Text] token. *)
Lemma first_match_single d c :
  is_word c = false ->
  first_match (tokens (lexer_of d)) [c] = Some (Text, [c], []).
Proof.
  intros Hc.
  destruct (first_match (tokens (lexer_of d)) [c]) as [[[ty w] rest]|] eqn:E;
    [|now apply lexer_cover in E].
  pose proof E as E'.
  apply first_match_progress in E'; [|apply lexer_progress].
  destruct E' as (Es & Hw & _).
  assert (w = [c] /\ rest = []) as [-> ->].
  { destruct w as [|a w]; [congruence|]. injection Es as <- Es.
    symmetry in Es. apply app_eq_nil in Es. destruct Es as [-> ->]. now split. }
  apply first_match_inv in E. destruct E as (p & Hin & Hm).
  assert (Hwords : forall ws,
            (forall w, In w (map str ws) -> word_text w = true) ->
            rule_match (Words ws) [c] <> Some ([c], [])).
  { intros ws Hall. unfold rule_match.
    destruct (words_match (map str ws) [c]) as [r|] eqn:Ew; [|discriminate].
    apply words_match_sound in Ew. destruct Ew as (w & Hw' & Ew & _).
    apply Hall in Hw'. intros _.
    destruct w as [|a w]; [discriminate|]. injection Ew as <- _.
    simpl in Hw'. apply andb_true_iff in Hw'. destruct Hw'. congruence. }
  destruct ty; try reflexivity; exfalso;
    destruct d; simpl in Hin;
    repeat (destruct Hin as [Hin|Hin];
            [injection Hin as <-; try discriminate|]);
    try contradiction;
    try (revert Hm; first [apply (Hwords _ fstar_keywords_words)
                          |apply (Hwords _ pulse_keywords_words)]);
    try (unfold rule_match, match_prefix, line_comment, block_comment in Hm;
         cbn [rmatch atom] in Hm;
         repeat match type of Hm with
                | context [(?a =? ?b)%N] => destruct (a =? b)%N
                end; discriminate).
Qed.

Lemma single_nonword d c pos :
  is_word c = false ->
  scan (tokens (lexer_of d)) 2 pos [c] = Some [(pos, Text, [c])].
Proof.
  intros Hc. cbn [scan]. rewrite (first_match_single d c Hc).
  now rewrite first_match_end.
Qed.

(** ** Comments *)

Lemma matches_chr_inv c w : matches (Chr c) w -> w = [c].
Proof. now inversion 1. Qed.

Lemma matches_class_inv items w :
  matches (Class items) w -> exists c, w = [c] /\ in_class items c = true.
Proof. inversion 1; subst. eauto. Qed.

Lemma matches_seq_inv r1 r2 w :
  matches (Seq r1 r2) w ->
  exists w1 w2, w = w1 ++ w2 /\ matches r1 w1 /\ matches r2 w2.
Proof. inversion 1; subst. eauto. Qed.

Lemma matches_plus_inv r w :
  matches (Plus r) w ->
  exists w1 w2, w = w1 ++ w2 /\ matches r w1 /\ matches (Star r) w2.
Proof. inversion 1; subst. eauto. Qed.

Lemma occurs_spec p : forall s,
  occurs p s = true <-> exists a b, s = a ++ p ++ b.
Proof.
  induction s as [|c s IH].
  - simpl. destruct (strip_prefix p []) as [r|] eqn:E.
    + apply strip_prefix_spec in E. split; [|reflexivity].
      intros _. now exists [], r.
    + split; [discriminate|]. intros (a & b & H).
      destruct a; [|discriminate]. simpl in H.
      apply strip_prefix_spec in H. congruence.
  - cbn [occurs]. destruct (strip_prefix p (c :: s)) as [r|] eqn:E.
    + apply strip_prefix_spec in E. split; [|reflexivity].
      intros _. now exists [], r.
    + rewrite IH. split.
      * intros (a & b & ->). now exists (c :: a), b.
      * intros (a & b & H). destruct a as [|x a].
        -- simpl in H. apply strip_prefix_spec in H. congruence.
        -- injection H as _ ->. now exists a, b.
Qed.

Lemma occurs_suffix p w rest :
  occurs p (w ++ rest) = false -> occurs p rest = false.
Proof.
  intros H. destruct (occurs p rest) eqn:E; [|reflexivity].
  apply occurs_spec in E. destruct E as (a & b & ->).
  assert (A : occurs p (w ++ a ++ p ++ b) = true)
    by (apply occurs_spec; exists (w ++ a), b; now rewrite app_assoc).
  congruence.
Qed.

Lemma star_class_all items w :
  matches (Star (Class items)) w -> forallb (in_class items) w = true.
Proof.
  intros H. remember (Star (Class items)) as r eqn:Er.
  induction H; try discriminate; [reflexivity|].
  injection Er as ->. rewrite forallb_app, IHmatches2 by reflexivity.
  apply matches_class_inv in H. destruct H as (c & -> & Hc).
  simpl. now rewrite Hc.
Qed.

(** A line comment ends with a newline. *)
Lemma line_comment_shape w :
  matches line_comment w ->
  exists b, w = str "//" ++ b ++ [newline].
Proof.
  unfold line_comment. intros H.
  apply matches_seq_inv in H. destruct H as (w1 & w2 & -> & H1 & H).
  apply matches_seq_inv in H. destruct H as (w3 & w4 & -> & H2 & H).
  apply matches_seq_inv in H. destruct H as (w5 & w6 & -> & _ & H3).
  apply matches_chr_inv in H1, H2, H3. subst. now exists w5.
Qed.

(** A block comment starts with its open delimiter and ends with a close
    delimiter that does not overlap it. *)
Lemma block_comment_shape w :
  matches block_comment w ->
  exists b, w = str "(*" ++ b ++ str "*)".
Proof.
  unfold block_comment. intros H.
  apply matches_seq_inv in H. destruct H as (w1 & w2 & -> & H1 & H).
  apply matches_seq_inv in H. destruct H as (w3 & w4 & -> & H2 & H).
  apply matches_seq_inv in H. destruct H as (body & w5 & -> & _ & H).
  apply matches_seq_inv in H. destruct H as (stars & w6 & -> & H3 & H4).
  apply matches_chr_inv in H1, H4. subst w1 w6.
  apply matches_class_inv in H2. destruct H2 as (c & -> & Hc).
  simpl in Hc. rewrite orb_false_r in Hc. apply N.eqb_eq in Hc. subst c.
  apply matches_plus_inv in H3. destruct H3 as (w1 & w2 & -> & H3 & H5).
  apply matches_class_inv in H3. destruct H3 as (c & -> & Hc).
  apply star_class_all in H5.
  assert (B : forallb (in_class [One (ch "*")]) ([c] ++ w2) = true)
    by (cbn [app forallb]; now rewrite Hc, H5).
  destruct (exists_last (l := [c] ++ w2)) as (l & x & E); [discriminate|].
  rewrite E in B |- *. rewrite forallb_app in B.
  apply andb_true_iff in B. destruct B as [_ B]. simpl in B.
  rewrite orb_false_r, andb_true_r in B. apply N.eqb_eq in B. subst x.
  exists (body ++ l). simpl. now rewrite <- !app_assoc.
Qed.

Lemma rule_match_regex_sound r s w rest :
  rule_match (Regex r) s = Some (w, rest) -> matches r w.
Proof.
  unfold rule_match. destruct (match_prefix r s) as [y|] eqn:E; [|discriminate].
  apply rmatch_sound in E. destruct E as (w' & s' & -> & Hm & [= ->]).
  rewrite firstn_suffix. now intros [= <- _].
Qed.

(** A [Comment] token comes from one of the two comment rules. *)
Lemma comment_token_origin d s w rest :
  first_match (tokens (lexer_of d)) s = Some (Comment, w, rest) ->
  s = w ++ rest /\ (matches line_comment w \/ matches block_comment w).
Proof.
  intros E. apply first_match_inv in E. destruct E as (p & Hin & Hm).
  split; [exact (rule_match_split _ _ _ _ Hm)|].
  destruct d; simpl in Hin;
    repeat (destruct Hin as [Hin|Hin];
            [injection Hin as <-; try discriminate|]);
    try contradiction;
    apply rule_match_regex_sound in Hm; auto.
Qed.

Lemma no_newline_no_line_comment w rest :
  forallb dot_accepts (w ++ rest) = true -> ~ matches line_comment w.
Proof.
  intros H Hm. apply line_comment_shape in Hm. destruct Hm as (b & ->).
  rewrite forallb_forall in H. specialize (H newline).
  assert (A : In newline ((str "//" ++ b ++ [newline]) ++ rest))
    by (rewrite !in_app_iff; left; right; right; now left).
  apply H in A. discriminate.
Qed.

Lemma no_close_no_block_comment w rest :
  occurs (str "*)") (w ++ rest) = false -> ~ matches block_comment w.
Proof.
  intros H Hm. apply block_comment_shape in Hm. destruct Hm as (b & ->).
  assert (A : occurs (str "*)") ((str "(*" ++ b ++ str "*)") ++ rest) = true).
  { apply occurs_spec. exists (str "(*" ++ b), rest.
    now rewrite <- !app_assoc. }
  congruence.
Qed.

(** Without a newline ahead the line-comment rule fails; without a close
    delimiter ahead (after the open one) the block-comment rule fails. *)
Lemma line_comment_unterminated s :
  forallb dot_accepts s = true -> rule_match (Regex line_comment) s = None.
Proof.
  intros H. destruct (rule_match (Regex line_comment) s) as [[w rest]|] eqn:E;
    [|reflexivity].
  pose proof (rule_match_split _ _ _ _ E) as ->.
  apply rule_match_regex_sound in E.
  now apply (no_newline_no_line_comment _ _ H) in E.
Qed.

Lemma block_comment_unterminated s :
  occurs (str "*)") s = false ->
  rule_match (Regex block_comment) (str "(*" ++ s) = None.
Proof.
  intros H.
  destruct (rule_match (Regex block_comment) (str "(*" ++ s)) as [[w rest]|]
    eqn:E; [|reflexivity].
  pose proof (rule_match_split _ _ _ _ E) as Es.
  apply rule_match_regex_sound, block_comment_shape in E.
  destruct E as (b & ->). rewrite <- !app_assoc in Es.
  apply app_inv_head in Es. subst s.
  assert (A : occurs (str "*)") (b ++ str "*)" ++ rest) = true)
    by (apply occurs_spec; now exists b, rest).
  congruence.
Qed.

(** The greedy [.*] of the line-comment rule runs to the first newline. *)
Lemma dot_run rest k x s : forall fuel,
  (length (s ++ newline :: rest) <= fuel)%nat ->
  forallb dot_accepts s = true ->
  k (newline :: rest) = Some x ->
  repeat_greedy (rmatch Dot) fuel (s ++ newline :: rest) k = Some x.
Proof.
  induction s as [|a s IH]; intros fuel Hf Hs Hk.
  - destruct fuel; [exact Hk|]. simpl. exact Hk.
  - simpl in Hs. apply andb_true_iff in Hs. destruct Hs as [Ha Hs].
    destruct fuel; [simpl in Hf; lia|].
    cbn [repeat_greedy app rmatch atom]. rewrite Ha.
    destruct (Nat.ltb_spec (length (s ++ newline :: rest))
                (length (a :: s ++ newline :: rest))) as [_|Hge];
      [|simpl in Hge; lia].
    rewrite IH; [reflexivity| |exact Hs|exact Hk]. simpl in Hf. lia.
Qed.

(** A line comment that a newline ends is matched up to and including the
    first newline. *)
Lemma line_comment_terminated s rest :
  forallb dot_accepts s = true ->
  rule_match (Regex line_comment) (str "//" ++ s ++ newline :: rest)
  = Some (str "//" ++ s ++ [newline], rest).
Proof.
  intros Hs.
  rewrite (regex_rule_hit _ _ rest).
  - replace (str "//" ++ s ++ newline :: rest)
      with ((str "//" ++ s ++ [newline]) ++ rest)
      by (now rewrite <- !app_assoc).
    now rewrite firstn_suffix.
  - unfold match_prefix, line_comment.
    change (str "//" ++ s ++ newline :: rest)
      with (ch "/" :: ch "/" :: s ++ newline :: rest).
    cbn [rmatch atom]. rewrite !N.eqb_refl.
    apply dot_run; [lia|exact Hs|].
    cbn [atom]. now rewrite N.eqb_refl.
Qed.

(** *** Block comments that end at the first close delimiter *)

Lemma rmatch_alt r1 r2 s k :
  rmatch (Alt r1 r2) s k
  = match rmatch r1 s k with Some r => Some r | None => rmatch r2 s k end.
Proof. reflexivity. Qed.

Lemma rmatch_seq r1 r2 s k :
  rmatch (Seq r1 r2) s k = rmatch r1 s (fun s1 => rmatch r2 s1 k).
Proof. reflexivity. Qed.

Lemma rmatch_notclass items c s k :
  rmatch (NotClass items) (c :: s) k
  = if in_class items c then None else k s.
Proof. cbn [rmatch atom]. now destruct (in_class items c). Qed.

Lemma repeat_greedy_step step fuel s k :
  repeat_greedy step (S fuel) s k
  = match step s (fun s' =>
                    if (length s' <? length s)%nat
                    then repeat_greedy step fuel s' k
                    else None) with
    | Some r => Some r
    | None => k s
    end.
Proof. reflexivity. Qed.

Lemma star_run_split s :
  exists st r,
    s = st ++ r /\ forallb (in_class [One (ch "*")]) st = true /\
    in_class_at [One (ch "*")] (hd_error r) = false.
Proof.
  induction s as [|a s (st & r & -> & Hst & Hr)].
  - now exists [], [].
  - destruct (in_class [One (ch "*")] a) eqn:Ea.
    + exists (a :: st), r. cbn [forallb app]. rewrite Ea, Hst.
      repeat split. exact Hr.
    + exists [], (a :: st ++ r). repeat split. exact Ea.
Qed.

Lemma ends_with_cons c a s :
  ends_with c (a :: s) = false -> ends_with c s = false.
Proof. destruct s; [reflexivity|]. now cbn [ends_with]. Qed.

Lemma ends_with_app c w s :
  ends_with c (w ++ s) = false -> ends_with c s = false.
Proof.
  induction w as [|a w IH]; [trivial|]. intros H.
  apply IH. exact (ends_with_cons _ _ _ H).
Qed.

Lemma all_stars_last w :
  w <> [] -> forallb (in_class [One (ch "*")]) w = true ->
  exists l, w = l ++ [ch "*"].
Proof.
  intros Hne Hw. destruct (exists_last Hne) as (l & x & ->).
  rewrite forallb_app in Hw. apply andb_true_iff in Hw.
  destruct Hw as [_ Hw]. cbn in Hw.
  rewrite orb_false_r, andb_true_r in Hw. apply N.eqb_eq in Hw. subst x.
  now exists l.
Qed.

Lemma ends_with_last c l : ends_with c (l ++ [c]) = true.
Proof.
  induction l as [|a l IH]; [apply N.eqb_refl|].
  destruct l; [simpl; apply N.eqb_refl|exact IH].
Qed.

(** The body of a block comment, [([^*]|[*]+[^)])*], runs over a text that
    holds no close delimiter and does not end with an asterisk, and stops at
    the close delimiter that follows it, where [[*]+\)] matches. *)
Lemma block_body_run rest n : forall body fuel,
  (length body <= n)%nat ->
  occurs (str "*)") body = false ->
  ends_with (ch "*") body = false ->
  (length (body ++ str "*)" ++ rest) <= fuel)%nat ->
  repeat_greedy
    (rmatch (Alt (NotClass [One (ch "*")])
                 (Seq (Plus (Class [One (ch "*")]))
                      (NotClass [One (ch ")")]))))
    fuel (body ++ str "*)" ++ rest)
    (fun s1 =>
       rmatch (Seq (Plus (Class [One (ch "*")])) (Chr (ch ")"))) s1
         (fun r => Some r))
  = Some rest.
Proof.
  induction n as [|n IH]; intros body fuel Hn Hoc Hend Hf.
  - destruct body; [|simpl in Hn; lia].
    destruct fuel; [simpl in Hf; lia|]. reflexivity.
  - destruct body as [|c body].
    + destruct fuel; [simpl in Hf; lia|]. reflexivity.
    + destruct fuel; [simpl in Hf; lia|].
      assert (Hlt : (length (body ++ str "*)" ++ rest)
                     <? length ((c :: body) ++ str "*)" ++ rest))%nat = true)
        by (apply Nat.ltb_lt; simpl; lia).
      destruct (in_class [One (ch "*")] c) eqn:Ec.
      * (* a run of asterisks, then a character that is not a parenthesis *)
        destruct (star_run_split body) as (st & r & -> & Hst & Hr).
        destruct r as [|x r].
        { exfalso. rewrite app_nil_r in Hend.
          destruct (all_stars_last (c :: st)) as (l & E);
            [discriminate|cbn [forallb]; now rewrite Ec, Hst|].
          rewrite E, ends_with_last in Hend. discriminate. }
        cbn [in_class_at hd_error] in Hr.
        assert (Hx : in_class [One (ch ")")] x = false).
        { destruct (in_class [One (ch ")")] x) eqn:Ex; [|reflexivity].
          exfalso. cbn in Ex. rewrite orb_false_r in Ex.
          apply N.eqb_eq in Ex. subst x.
          destruct (all_stars_last (c :: st)) as (l & E);
            [discriminate|cbn [forallb]; now rewrite Ec, Hst|].
          assert (A : occurs (str "*)") ((c :: st) ++ ch ")" :: r) = true).
          { apply occurs_spec. exists l, r. rewrite E.
            now rewrite <- app_assoc. }
          simpl in A, Hoc. congruence. }
        replace ((c :: st ++ x :: r) ++ str "*)" ++ rest)
          with ((c :: st) ++ x :: r ++ str "*)" ++ rest)
          by (simpl; now rewrite <- app_assoc).
        rewrite repeat_greedy_step, rmatch_alt.
        change ((c :: st) ++ x :: r ++ str "*)" ++ rest)
          with (c :: st ++ x :: r ++ str "*)" ++ rest) at 1.
        rewrite rmatch_notclass, Ec, rmatch_seq.
        rewrite (class_plus_run [One (ch "*")] (x :: r ++ str "*)" ++ rest)
                   _ rest (c :: st));
          [reflexivity|discriminate|cbn [forallb]; now rewrite Ec, Hst
          |exact Hr|].
        rewrite rmatch_notclass, Hx.
        destruct (Nat.ltb_spec (length (r ++ str "*)" ++ rest))
                    (length ((c :: st) ++ x :: r ++ str "*)" ++ rest)))
          as [_|Hge];
          [|rewrite !length_app in Hge; simpl in Hge;
            rewrite !length_app in Hge; simpl in Hge; lia].
        apply IH.
        -- simpl in Hn. rewrite length_app in Hn. simpl in Hn. lia.
        -- apply (occurs_suffix _ (c :: st ++ [x])).
           simpl. rewrite <- app_assoc. exact Hoc.
        -- apply ends_with_cons with x. apply (ends_with_app _ (c :: st)).
           exact Hend.
        -- repeat first [rewrite length_app in Hf | progress simpl in Hf].
           repeat first [rewrite length_app | progress simpl]. lia.
      * (* a character that is not an asterisk *)
        rewrite repeat_greedy_step, rmatch_alt.
        change ((c :: body) ++ str "*)" ++ rest)
          with (c :: body ++ str "*)" ++ rest) at 1.
        rewrite rmatch_notclass, Ec.
        change (c :: body ++ str "*)" ++ rest)
          with ((c :: body) ++ str "*)" ++ rest).
        rewrite Hlt.
        rewrite IH; [reflexivity| | | |].
        -- simpl in Hn. lia.
        -- exact (occurs_suffix _ [c] _ Hoc).
        -- exact (ends_with_cons _ _ _ Hend).
        -- repeat first [rewrite length_app in Hf | progress simpl in Hf].
           repeat first [rewrite length_app | progress simpl]. lia.
Qed.

(** A block comment whose body holds no close delimiter and does not end
    with an asterisk is matched exactly through its close delimiter. *)
Lemma block_comment_closed body rest :
  occurs (str "*)") body = false ->
  ends_with (ch "*") body = false ->
  rule_match (Regex block_comment) (str "(*" ++ body ++ str "*)" ++ rest)
  = Some (str "(*" ++ body ++ str "*)", rest).
Proof.
  intros Hoc Hend.
  rewrite (regex_rule_hit _ _ rest).
  - replace (str "(*" ++ body ++ str "*)" ++ rest)
      with ((str "(*" ++ body ++ str "*)") ++ rest)
      by (now rewrite <- !app_assoc).
    now rewrite firstn_suffix.
  - unfold match_prefix, block_comment.
    change (str "(*" ++ body ++ str "*)" ++ rest)
      with (ch "(" :: ch "*" :: body ++ str "*)" ++ rest).
    cbn [rmatch atom]. rewrite N.eqb_refl.
    change (in_class [One (ch "*")] (ch "*")) with true. cbv iota.
    now apply (block_body_run rest (length body)).
Qed.

Lemma words_rule_at_nonword ws a s :
  (forall w, In w (map str ws) -> word_text w = true) ->
  is_word a = false -> rule_match (Words ws) (a :: s) = None.
Proof.
  intros Hall Ha. unfold rule_match.
  destruct (words_match (map str ws) (a :: s)) as [r|] eqn:E; [|reflexivity].
  apply words_match_sound in E. destruct E as (w & Hin & E & _).
  apply Hall in Hin. destruct w as [|b w]; [discriminate|].
  injection E as <- _. simpl in Hin. apply andb_true_iff in Hin.
  destruct Hin. congruence.
Qed.

Lemma class_plus_miss items a s :
  in_class items a = false ->
  rule_match (Regex (Plus (Class items))) (a :: s) = None.
Proof.
  intros H. apply regex_rule_miss. unfold match_prefix. cbn [rmatch atom].
  now rewrite H.
Qed.

Lemma not_word_not_class items a :
  (forall x, in_class items x = true -> is_word x = true) ->
  is_word a = false -> in_class items a = false.
Proof.
  intros H Ha. destruct (in_class items a) eqn:E; [|reflexivity].
  apply H in E. congruence.
Qed.

(** A character that is neither blank nor a word character, at a position
    where no comment starts, is a [Text] token of its own, by the last
    rule. *)
Lemma first_match_punct d a s :
  is_word a = false ->
  (a =? ch " ")%N = false -> (a =? newline)%N = false ->
  (a =? carriage_return)%N = false ->
  rule_match (Regex line_comment) (a :: s) = None ->
  rule_match (Regex block_comment) (a :: s) = None ->
  first_match (tokens (lexer_of d)) (a :: s) = Some (Text, [a], s).
Proof.
  intros Hw H1 H2 H3 H4 H5.
  assert (Hd : rule_match (Regex Dot) (a :: s) = Some ([a], s))
    by (apply dot_rule; intros ->; discriminate).
  destruct d; cbn [lexer_of tokens CustomLexer PulseLexer first_match];
    rewrite !chr_rule_miss, H4, H5 by assumption;
    rewrite !words_rule_at_nonword
      by first [exact fstar_keywords_words|exact pulse_keywords_words
               |exact Hw];
    unfold fstar_ident, pulse_ident;
    rewrite class_plus_miss
      by (apply not_word_not_class;
          [first [exact fstar_class_word|exact pulse_class_word]|exact Hw]);
    now rewrite Hd.
Qed.

(** At such a character every rule but the last fails. *)
Lemma punct_only_last d a s :
  is_word a = false ->
  (a =? ch " ")%N = false -> (a =? newline)%N = false ->
  (a =? carriage_return)%N = false ->
  rule_match (Regex line_comment) (a :: s) = None ->
  rule_match (Regex block_comment) (a :: s) = None ->
  forall p ty,
    In (p, ty) (removelast (tokens (lexer_of d))) ->
    rule_match p (a :: s) = None.
Proof.
  intros Hw H1 H2 H3 H4 H5 p ty Hin.
  destruct d; simpl in Hin;
    repeat (destruct Hin as [Hin|Hin]; [injection Hin as <- <-|]);
    try contradiction;
    first [ now apply chr_rule_miss
          | exact H4
          | exact H5
          | apply words_rule_at_nonword;
            [first [exact fstar_keywords_words|exact pulse_keywords_words]
            |exact Hw]
          | apply class_plus_miss, not_word_not_class;
            [first [exact fstar_class_word|exact pulse_class_word]
            |exact Hw] ].
Qed.

Lemma scan_step rules fuel pos s ty w rest :
  first_match rules s = Some (ty, w, rest) ->
  scan rules (S fuel) pos s
  = option_map (cons (pos, ty, w)) (scan rules fuel (pos + length w) rest).
Proof. intros E. cbn [scan]. now rewrite E. Qed.

(** A property of the text that its suffixes keep decides which comment rule
    the [Comment] tokens can come from. *)
Lemma scan_comments (I Q : text -> Prop) d :
  (forall w rest, I (w ++ rest) -> I rest) ->
  (forall w rest, I (w ++ rest) ->
     matches line_comment w \/ matches block_comment w -> Q w) ->
  forall fuel pos s toks,
    I s -> scan (tokens (lexer_of d)) fuel pos s = Some toks ->
    Forall (fun t => tok_type t = Comment -> Q (tok_text t)) toks.
Proof.
  intros Hsuf HQ. induction fuel as [|fuel IH]; intros pos s toks Hs;
    [discriminate|]. cbn [scan].
  destruct (first_match (tokens (lexer_of d)) s) as [[[ty w] rest]|] eqn:E.
  - destruct (scan _ fuel _ rest) as [l|] eqn:El; [|discriminate].
    intros [= <-].
    pose proof E as E'. apply first_match_progress in E';
      [|apply lexer_progress]. destruct E' as (-> & _ & _).
    constructor; [|exact (IH _ _ _ (Hsuf _ _ Hs) El)].
    unfold tok_type, tok_text. simpl. intros ->.
    apply comment_token_origin in E. destruct E as [_ E]. eauto.
  - destruct s as [|c s']; [intros [= <-]; constructor|].
    now apply lexer_cover in E.
Qed.

(** The keyword rules match no literal that a word character follows. *)
Lemma keyword_not_inside d w c rest r :
  is_word c = true ->
  first_match (tokens (lexer_of d)) (w ++ c :: rest) <> Some (Keyword, w, r).
Proof.
  intros Hc E. apply first_match_inv in E. destruct E as (p & Hin & Hm).
  pose proof (rule_match_split _ _ _ _ Hm) as Es. apply app_inv_head in Es.
  subst r.
  assert (Hwords : forall ws,
            (forall w', In w' (map str ws) -> word_text w' = true) ->
            rule_match (Words ws) (w ++ c :: rest) <> Some (w, c :: rest)).
  { intros ws Hall. unfold rule_match.
    destruct (words_match (map str ws) (w ++ c :: rest)) as [r|] eqn:Ew;
      [|discriminate].
    intros [= _ ->].
    now apply (words_match_inside _ _ _ _ _ Hall Ew Hc). }
  destruct d; simpl in Hin;
    repeat (destruct Hin as [Hin|Hin];
            [injection Hin as <-; try discriminate|]);
    try contradiction;
    revert Hm; first [apply (Hwords _ fstar_keywords_words)
                     |apply (Hwords _ pulse_keywords_words)].
Qed.

(** The first token of the output comes from the first match at offset 0. *)
Lemma first_token_inv d s t toks :
  get_tokens_unprocessed (lexer_of d) s = Some (t :: toks) ->
  exists rest,
    first_match (tokens (lexer_of d)) s = Some (tok_type t, tok_text t, rest)
    /\ tok_pos t = 0.
Proof.
  unfold get_tokens_unprocessed. cbn [scan].
  destruct (first_match (tokens (lexer_of d)) s) as [[[ty w] rest]|] eqn:E.
  - destruct (scan _ _ _ rest); [|discriminate].
    intros [= <- _]. now exists rest.
  - destruct s as [|c s']; [discriminate|]. now apply lexer_cover in E.
Qed.

Lemma catch_all_is_dot d : catch_all (lexer_of d) = (Regex Dot, Text).
Proof. now destruct d. Qed.

Lemma dot_rule_newline s : rule_match (Regex Dot) (newline :: s) = None.
Proof. reflexivity. Qed.

Lemma first_match_newline d s :
  first_match (tokens (lexer_of d)) (newline :: s) = Some (Text, [newline], s).
Proof.
  destruct d; cbn [lexer_of tokens CustomLexer PulseLexer first_match];
    change (rule_match (Regex (Chr (ch " "))) (newline :: s)) with
      (@None (text * text));
    now rewrite newline_rule.
Qed.

(** ** Totality, progress and the token vocabulary *)

(** C1. For every text and either lexer, the loop ends with a list of tokens
    whose texts, concatenated in order, are the input; each token starts where
    the previous one ended, the first at offset 0 (no gap, no overlap). *)
Theorem round_trip_totality (d : dialect) (s : text) :
  exists toks,
    get_tokens_unprocessed (lexer_of d) s = Some toks /\
    concat (map tok_text toks) = s /\
    contiguous 0 toks.
Proof.
  destruct (lexer_total d s) as (toks & H & Hc & Hp & _).
  now exists toks.
Qed.

(** C2. At every scan position, every rule of either lexer that matches
    consumes at least one character of the text; so does the first matching
    rule, the one the loop commits to, and no rule matches only at the end of
    the text.  The loop therefore ends within [length s + 1] iterations,
    having committed at most [length s] matches, each of them non-empty. *)
Theorem progress_and_termination (d : dialect) (s : text) :
  Forall (fun r => match rule_match (fst r) s with
                   | Some (w, rest) => (1 <= length w)%nat /\ s = w ++ rest
                   | None => True
                   end) (tokens (lexer_of d)) /\
  match first_match (tokens (lexer_of d)) s with
  | Some (_, w, rest) => (1 <= length w)%nat /\ s = w ++ rest
  | None => s = []
  end /\
  exists toks,
    scan (tokens (lexer_of d)) (S (length s)) 0 s = Some toks /\
    (length toks <= length s)%nat /\
    Forall (fun t => (1 <= length (tok_text t))%nat) toks.
Proof.
  split; [|split].
  - apply Forall_forall. intros [p ty] Hin. cbn [fst].
    destruct (rule_match p s) as [[w rest]|] eqn:E; [|exact I].
    pose proof (rule_match_nonempty p s w rest (lexer_progress d p ty Hin) E)
      as Hw.
    split; [destruct w; [congruence|simpl; lia]|].
    exact (rule_match_split p s w rest E).
  - destruct (first_match _ s) as [[[ty w] rest]|] eqn:E.
    + apply first_match_progress in E; [|apply lexer_progress].
      destruct E as (-> & Hw & _). split; [|reflexivity].
      destruct w; [congruence|simpl; lia].
    + destruct s as [|c s']; [reflexivity|]. now apply lexer_cover in E.
  - destruct (lexer_total d s) as (toks & H & _ & _ & Ha & Hn).
    exists toks. repeat split; [exact H|exact Hn|].
    eapply Forall_impl; [|exact Ha]. simpl. intros t [Ht _].
    destruct (tok_text t); [congruence|simpl; lia].
Qed.

(** C3, as amended.  The rule in the last position of either table is [.]; it
    matches any single character except the newline, which it rejects.  The
    newline is taken by the second rule, so at every position before the end
    of the text some rule matches and the scan advances. *)
Theorem catch_all_except_newline (d : dialect) (c : char) (s : text) :
  catch_all (lexer_of d) = (Regex Dot, Text) /\
  rule_match (fst (catch_all (lexer_of d))) (c :: s)
    = (if (c =? newline)%N then None else Some ([c], s)) /\
  first_match (tokens (lexer_of d)) (newline :: s)
    = Some (Text, [newline], s) /\
  first_match (tokens (lexer_of d)) (c :: s) <> None.
Proof.
  rewrite catch_all_is_dot. simpl fst. split; [reflexivity|]. repeat split.
  - destruct (N.eqb_spec c newline) as [->|Hc];
      [apply dot_rule_newline|now apply dot_rule].
  - apply first_match_newline.
  - apply lexer_cover.
Qed.

(** C4. For every text and either lexer the loop returns a token list, and
    every token in it has type [Text], [Comment] or [Keyword]: the loop's own
    [Error] and [Whitespace] tokens never appear. *)
Theorem closed_vocabulary (d : dialect) (s : text) :
  exists toks,
    get_tokens_unprocessed (lexer_of d) s = Some toks /\
    Forall (fun t => tok_type t = Text \/ tok_type t = Comment \/
                     tok_type t = Keyword) toks.
Proof.
  destruct (lexer_total d s) as (toks & H & _ & _ & Ha & _).
  exists toks. split; [exact H|].
  eapply Forall_impl; [|exact Ha]. simpl. intros t [_ Ht].
  destruct (tok_type t); simpl in Ht; auto; discriminate.
Qed.

(** C7. The text [x1] is one [Text] token for the FStar lexer, whose
    identifier rule accepts digits, and two [Text] tokens, [x] and [1], for
    the Pulse lexer, whose identifier rule does not: the digit is left to the
    last rule. *)
Theorem digit_asymmetry :
  get_tokens_unprocessed CustomLexer (str "x1")
    = Some [(0, Text, str "x1")] /\
  get_tokens_unprocessed PulseLexer (str "x1")
    = Some [(0, Text, str "x"); (1, Text, str "1")] /\
  first_match (tokens PulseLexer) (str "x1")
    = Some (Text, str "x", str "1") /\
  rule_match (Regex pulse_ident) (str "1") = None /\
  rule_match (fst (catch_all PulseLexer)) (str "1") = Some (str "1", []).
Proof. repeat split; vm_compute; reflexivity. Qed.

(** C5. A keyword of the lexer followed by a character that is not a word
    character (Python's [\w]: a letter, a digit or the underscore), such as a
    space, is emitted as one [Keyword] token, whatever follows; when the input
    is exactly the keyword and that character, the output is the keyword and
    the character as [Text].  Followed by a word character, the keyword is
    not emitted as a [Keyword] token.  The text [letrec] is one [Text]
    token. *)
Theorem keyword_word_boundary (d : dialect) (k : string) (c : char)
    (rest : text) :
  In k (keywords_of d) ->
  (is_word c = false ->
     (exists toks,
        get_tokens_unprocessed (lexer_of d) (str k ++ c :: rest)
        = Some ((0, Keyword, str k) :: toks)) /\
     get_tokens_unprocessed (lexer_of d) (str k ++ [c])
     = Some [(0, Keyword, str k); (length (str k), Text, [c])]) /\
  (is_word c = true ->
     forall toks,
       get_tokens_unprocessed (lexer_of d) (str k ++ c :: rest)
       <> Some ((0, Keyword, str k) :: toks)) /\
  get_tokens_unprocessed (lexer_of d) (str "letrec")
  = Some [(0, Text, str "letrec")].
Proof.
  intros Hin. split; [|split].
  - intros H. split.
    + destruct (first_token d _ _ _ _
                  (keyword_first_match d k (c :: rest) Hin H))
        as (toks & E & _).
      now exists toks.
    + destruct (first_token d _ _ _ _
                  (keyword_first_match d k [c] Hin H)) as (toks & E & Es).
      rewrite E. cbn [length] in Es.
      rewrite (single_nonword d c (length (str k)) H) in Es.
      now injection Es as <-.
  - intros H toks E. apply first_token_inv in E. destruct E as (r & E & _).
    now apply keyword_not_inside in E.
  - destruct d; vm_compute; reflexivity.
Qed.

(** C8. A Pulse keyword followed by the end of the text or by a character
    that is not a word character is a [Text] token (an identifier) for the
    FStar lexer and a [Keyword] token for the Pulse lexer; and the Pulse lexer
    emits every FStar keyword so placed as a [Keyword] token too. *)
Theorem extension_vocabulary (rest : text) :
  is_word_at (hd_error rest) = false ->
  (forall k, In k pulse_keywords ->
     rule_match (Regex fstar_ident) (str k ++ rest) = Some (str k, rest) /\
     (exists toks,
        get_tokens_unprocessed CustomLexer (str k ++ rest)
        = Some ((0, Text, str k) :: toks)) /\
     (exists toks,
        get_tokens_unprocessed PulseLexer (str k ++ rest)
        = Some ((0, Keyword, str k) :: toks))) /\
  (forall k, In k fstar_keywords ->
     exists toks,
       get_tokens_unprocessed PulseLexer (str k ++ rest)
       = Some ((0, Keyword, str k) :: toks)).
Proof.
  intros Hrest. split.
  - intros k Hin.
    destruct (pulse_keyword_fstar k rest Hin Hrest) as (_ & Hid & Hfirst).
    split; [exact Hid|]. split.
    + destruct (first_token FStar _ _ _ _ Hfirst) as (toks & E & _).
      now exists toks.
    + assert (Hk : In k (keywords_of Pulse))
        by (cbn [keywords_of]; apply in_or_app; now right).
      destruct (first_token Pulse _ _ _ _
                  (keyword_first_match Pulse k rest Hk Hrest))
        as (toks & E & _).
      now exists toks.
  - intros k Hin.
    assert (Hk : In k (keywords_of Pulse))
      by (cbn [keywords_of]; apply in_or_app; now left).
    destruct (first_token Pulse _ _ _ _
                (keyword_first_match Pulse k rest Hk Hrest)) as (toks & E & _).
    now exists toks.
Qed.

(** C9, as amended.  For a text [s] without a newline: the line-comment rule
    does not match [//s]; each of the two slashes is matched by the last rule
    only and emitted as a one-character [Text] token; the rest is tokenized
    by the ordinary rules, and every [Comment] token in it is a block
    comment, so no line-comment token is emitted.  For [// hello] the output
    is the four [Text] tokens [/], [/], the space and [hello].  Conversely,
    [//s] followed by a newline is one [Comment] token that includes the
    newline, whatever follows; [// hello], a newline and [let] give that
    [Comment] token and the [Keyword] token [let]. *)
Theorem line_comment_needs_newline (d : dialect) (s rest : text) :
  forallb dot_accepts s = true ->
  rule_match (Regex line_comment) (str "//" ++ s) = None /\
  (forall p ty,
     In (p, ty) (removelast (tokens (lexer_of d))) ->
     rule_match p (str "//" ++ s) = None /\
     rule_match p (str "/" ++ s) = None) /\
  (exists toks,
     get_tokens_unprocessed (lexer_of d) (str "//" ++ s)
     = Some ((0, Text, str "/") :: (1, Text, str "/") :: toks) /\
     Forall (fun t => tok_type t = Comment ->
                      matches block_comment (tok_text t)) toks) /\
  get_tokens_unprocessed (lexer_of d) (str "// hello")
  = Some [(0, Text, str "/"); (1, Text, str "/"); (2, Text, str " ");
          (3, Text, str "hello")] /\
  (exists toks,
     get_tokens_unprocessed (lexer_of d) (str "//" ++ s ++ newline :: rest)
     = Some ((0, Comment, str "//" ++ s ++ [newline]) :: toks)) /\
  get_tokens_unprocessed (lexer_of d) (str "// hello" ++ newline :: str "let")
  = Some [(0, Comment, str "// hello" ++ [newline]); (9, Keyword, str "let")].
Proof.
  intros Hs.
  assert (H1 : forall t, forallb dot_accepts t = true ->
                 first_match (tokens (lexer_of d)) (ch "/" :: t)
                 = Some (Text, [ch "/"], t)).
  { intros t Ht. apply first_match_punct; try reflexivity.
    apply line_comment_unterminated. simpl. exact Ht. }
  split; [|split; [|split; [|split; [|split]]]].
  - apply line_comment_unterminated. simpl. exact Hs.
  - intros p ty Hin.
    split; (apply (punct_only_last d) with (ty := ty);
            [reflexivity|reflexivity|reflexivity|reflexivity| |reflexivity
            |exact Hin]);
      apply line_comment_unterminated; simpl; exact Hs.
  - destruct (scan_total (tokens (lexer_of d)) (lexer_progress d)
                (lexer_cover d) (S (length s)) 2 s) as (toks & E & _); [lia|].
    exists toks. split.
    + unfold get_tokens_unprocessed.
      change (str "//" ++ s) with (ch "/" :: ch "/" :: s).
      cbn [length].
      rewrite (scan_step _ _ _ _ _ _ _ (H1 (ch "/" :: s) Hs)).
      rewrite (scan_step _ _ _ _ _ _ _ (H1 s Hs)).
      cbn [length Nat.add]. now rewrite E.
    + revert E. apply scan_comments with (I := fun t => forallb dot_accepts t = true);
        [| |exact Hs].
      * intros w r H. rewrite forallb_app in H.
        now apply andb_true_iff in H.
      * intros w r H [Hl|Hb]; [|exact Hb].
        now apply (no_newline_no_line_comment _ _ H) in Hl.
  - destruct d; vm_compute; reflexivity.
  - assert (E : first_match (tokens (lexer_of d))
                  (str "//" ++ s ++ newline :: rest)
                = Some (Comment, str "//" ++ s ++ [newline], rest)).
    { pose proof (line_comment_terminated s rest Hs) as Hl.
      change (str "//" ++ s ++ newline :: rest)
        with (ch "/" :: ch "/" :: s ++ newline :: rest) in Hl |- *.
      destruct d; cbn [lexer_of tokens CustomLexer PulseLexer first_match];
        rewrite !chr_rule_miss by reflexivity; now rewrite Hl. }
    destruct (first_token d _ _ _ _ E) as (toks & Et & _). now exists toks.
  - destruct d; vm_compute; reflexivity.
Qed.

(** C10, as amended.  Where the scan reaches an open delimiter that no close
    delimiter follows, at any offset [pos], the block-comment rule does not
    match; each of the two characters of the delimiter is matched by the last
    rule only and emitted as a one-character [Text] token; and the rest is
    tokenized by the ordinary rules: every [Comment] token in it is a line
    comment, so no block-comment token is emitted. *)
Theorem block_comment_needs_close (d : dialect) (s : text) (pos : nat) :
  occurs (str "*)") s = false ->
  rule_match (Regex block_comment) (str "(*" ++ s) = None /\
  (forall p ty,
     In (p, ty) (removelast (tokens (lexer_of d))) ->
     rule_match p (str "(*" ++ s) = None /\
     rule_match p (str "*" ++ s) = None) /\
  exists toks,
    scan (tokens (lexer_of d)) (S (length (str "(*" ++ s))) pos
      (str "(*" ++ s)
    = Some ((pos, Text, str "(") :: (pos + 1, Text, str "*") :: toks) /\
    Forall (fun t => tok_type t = Comment ->
                     matches line_comment (tok_text t)) toks.
Proof.
  intros Hs.
  pose proof (block_comment_unterminated s Hs) as Hb.
  split; [exact Hb|]. split.
  { intros p ty Hin.
    split; (apply (punct_only_last d) with (ty := ty);
            [reflexivity|reflexivity|reflexivity|reflexivity|reflexivity|
            |exact Hin]); [exact Hb|reflexivity]. }
  assert (H1 : first_match (tokens (lexer_of d)) (ch "(" :: ch "*" :: s)
               = Some (Text, [ch "("], ch "*" :: s)).
  { apply first_match_punct; try reflexivity. exact Hb. }
  assert (H2 : first_match (tokens (lexer_of d)) (ch "*" :: s)
               = Some (Text, [ch "*"], s)).
  { apply first_match_punct; reflexivity. }
  destruct (scan_total (tokens (lexer_of d)) (lexer_progress d)
              (lexer_cover d) (S (length s)) (pos + 1 + 1) s)
    as (toks & E & _); [lia|].
  exists toks. split.
  - change (str "(*" ++ s) with (ch "(" :: ch "*" :: s). cbn [length].
    rewrite (scan_step _ _ _ _ _ _ _ H1), (scan_step _ _ _ _ _ _ _ H2).
    cbn [length]. now rewrite E.
  - revert E.
    apply scan_comments with (I := fun t => occurs (str "*)") t = false);
      [| |exact Hs].
    + intros w r H. exact (occurs_suffix _ _ _ H).
    + intros w r H [Hl|Hc]; [exact Hl|].
      now apply (no_close_no_block_comment _ _ H) in Hc.
Qed.

(** C6, where the code departs from the claim.  Take the comment whose body
    is one asterisk (open parenthesis, three asterisks, close parenthesis),
    followed by a space, [x], a space and a second close delimiter.  The
    five-character comment is a complete block comment and a prefix of that
    text, yet the block-comment rule matches the whole text, past the first
    close delimiter: the second alternative of the pattern's body, asterisks
    and then any character but the close parenthesis, takes two asterisks
    that a close parenthesis follows.  The longer match is taken only when a
    later close delimiter exists; and a comment with an empty body ends at
    its own close delimiter. *)
Theorem block_comment_past_first_close (d : dialect) :
  rule_match (Regex block_comment) (str "(***)") = Some (str "(***)", []) /\
  rule_match (Regex block_comment) (str "(***) x *)")
  = Some (str "(***) x *)", []) /\
  get_tokens_unprocessed (lexer_of d) (str "(***) x *)")
  = Some [(0, Comment, str "(***) x *)")] /\
  get_tokens_unprocessed (lexer_of d) (str "(***) x")
  = Some [(0, Comment, str "(***)"); (5, Text, str " ");
          (6, Text, str "x")] /\
  get_tokens_unprocessed (lexer_of d) (str "(**) x *)")
  = Some [(0, Comment, str "(**)"); (4, Text, str " "); (5, Text, str "x");
          (6, Text, str " "); (7, Text, str "*"); (8, Text, str ")")].
Proof. repeat split; destruct d; vm_compute; reflexivity. Qed.

(** A block comment whose body holds no close delimiter and does not end
    with an asterisk is one [Comment] token that ends at its close delimiter,
    whatever follows: an open delimiter nested in the body changes nothing,
    and text after the close delimiter is not part of the token. *)
Theorem block_comment_to_first_close (d : dialect) (body rest : text) :
  occurs (str "*)") body = false ->
  ends_with (ch "*") body = false ->
  exists toks,
    get_tokens_unprocessed (lexer_of d) (str "(*" ++ body ++ str "*)" ++ rest)
    = Some ((0, Comment, str "(*" ++ body ++ str "*)") :: toks).
Proof.
  intros Hoc Hend.
  assert (E : first_match (tokens (lexer_of d))
                (str "(*" ++ body ++ str "*)" ++ rest)
              = Some (Comment, str "(*" ++ body ++ str "*)", rest)).
  { pose proof (block_comment_closed body rest Hoc Hend) as Hb.
    change (str "(*" ++ body ++ str "*)" ++ rest)
      with (ch "(" :: ch "*" :: body ++ str "*)" ++ rest) in Hb |- *.
    destruct d; cbn [lexer_of tokens CustomLexer PulseLexer first_match];
      rewrite !chr_rule_miss, line_comment_first by reflexivity;
      now rewrite Hb. }
  destruct (first_token d _ _ _ _ E) as (toks & Et & _). now exists toks.
Qed.

(** ** What every token is *)

Lemma matches_dot_inv w :
  matches Dot w -> exists c, w = [c] /\ dot_accepts c = true.
Proof. inversion 1; subst. eauto. Qed.

Lemma star_dot_all w : matches (Star Dot) w -> forallb dot_accepts w = true.
Proof.
  intros H. remember (Star Dot) as r eqn:Er.
  induction H; try discriminate; [reflexivity|].
  injection Er as ->. rewrite forallb_app, IHmatches2 by reflexivity.
  apply matches_dot_inv in H. destruct H as (c & -> & Hc).
  cbn [forallb]. now rewrite Hc.
Qed.

Lemma line_comment_inv s w rest :
  rule_match (Regex line_comment) s = Some (w, rest) ->
  exists b, forallb dot_accepts b = true /\ w = str "//" ++ b ++ [newline].
Proof.
  intros H. apply rule_match_regex_sound in H. unfold line_comment in H.
  apply matches_seq_inv in H. destruct H as (w1 & w2 & -> & H1 & H).
  apply matches_seq_inv in H. destruct H as (w3 & w4 & -> & H2 & H).
  apply matches_seq_inv in H. destruct H as (b & w6 & -> & Hb & H3).
  apply matches_chr_inv in H1, H2, H3. subst.
  exists b. split; [now apply star_dot_all|reflexivity].
Qed.

Lemma chr_rule_inv c s w rest :
  rule_match (Regex (Chr c)) s = Some (w, rest) -> w = [c] /\ s = c :: rest.
Proof.
  intros H. pose proof (rule_match_split _ _ _ _ H) as Es.
  apply rule_match_regex_sound, matches_chr_inv in H. subst w.
  now split.
Qed.

Lemma dot_rule_inv s w rest :
  rule_match (Regex Dot) s = Some (w, rest) ->
  exists c, w = [c] /\ s = c :: rest /\ c <> newline.
Proof.
  intros H. pose proof (rule_match_split _ _ _ _ H) as Es.
  apply rule_match_regex_sound, matches_dot_inv in H.
  destruct H as (c & -> & Hc).
  exists c. split; [reflexivity|]. split; [exact Es|].
  intros ->. discriminate.
Qed.

Lemma words_rule_inv ws s w rest :
  (forall w', In w' (map str ws) -> word_text w' = true) ->
  rule_match (Words ws) s = Some (w, rest) ->
  exists k, In k ws /\ w = str k /\ is_word_at (hd_error rest) = false.
Proof.
  intros Hall H. pose proof (rule_match_split _ _ _ _ H) as Es.
  unfold rule_match in H.
  destruct (words_match (map str ws) s) as [r|] eqn:E; [|discriminate].
  injection H as _ ->.
  apply (words_match_spec _ _ _ Hall) in E.
  destruct E as (w' & Hin & E & B).
  rewrite E in Es. apply app_inv_tail in Es. subst w'.
  apply in_map_iff in Hin. destruct Hin as (k & <- & Hin). eauto.
Qed.

(** Any text splits into its longest prefix inside a class and the rest. *)
Lemma class_run_split items s :
  exists run tail,
    s = run ++ tail /\ forallb (in_class items) run = true /\
    in_class_at items (hd_error tail) = false.
Proof.
  induction s as [|a s (run & tail & -> & Hrun & Htail)].
  - now exists [], [].
  - destruct (in_class items a) eqn:Ea.
    + exists (a :: run), tail. cbn [forallb app]. rewrite Ea, Hrun.
      repeat split. exact Htail.
    + exists [], (a :: run ++ tail). repeat split. exact Ea.
Qed.

(** A greedy [[...]+] matches exactly the longest run of its class. *)
Lemma class_plus_inv items s w rest :
  rule_match (Regex (Plus (Class items))) s = Some (w, rest) ->
  w <> [] /\ forallb (in_class items) w = true /\
  in_class_at items (hd_error rest) = false.
Proof.
  destruct (class_run_split items s) as (run & tail & -> & Hrun & Htail).
  destruct run as [|a run].
  - destruct tail as [|c tail]; [discriminate|].
    cbn [in_class_at hd_error] in Htail. cbn [app].
    now rewrite (class_plus_miss items c tail Htail).
  - rewrite (class_plus_rule items (a :: run) tail); [|discriminate|exact Hrun
                                                      |exact Htail].
    intros [= <- <-]. repeat split; [discriminate|exact Hrun|exact Htail].
Qed.

Lemma class_plus_none items c s :
  rule_match (Regex (Plus (Class items))) (c :: s) = None ->
  in_class items c = false.
Proof.
  intros H. destruct (in_class items c) eqn:Ec; [|reflexivity].
  destruct (class_run_split items s) as (run & tail & -> & Hrun & Htail).
  change (c :: run ++ tail) with ((c :: run) ++ tail) in H.
  rewrite (class_plus_rule items (c :: run) tail) in H;
    [discriminate|discriminate|cbn [forallb]; now rewrite Ec, Hrun
    |exact Htail].
Qed.

Lemma chr_rule_hit c s : rule_match (Regex (Chr c)) (c :: s) = Some ([c], s).
Proof.
  rewrite (regex_rule_hit (Chr c) (c :: s) s).
  - change (c :: s) with ([c] ++ s). now rewrite firstn_suffix.
  - unfold match_prefix. cbn [rmatch atom]. now rewrite N.eqb_refl.
Qed.

Lemma chr_rule_none c a s :
  rule_match (Regex (Chr c)) (a :: s) = None -> a <> c.
Proof. intros H ->. rewrite chr_rule_hit in H. discriminate. Qed.

(** The first match of either table, rule by rule. *)
Lemma first_match_origin d s ty w rest :
  first_match (tokens (lexer_of d)) s = Some (ty, w, rest) ->
  origin d s ty w rest.
Proof.
  assert (Hblank : forall c,
            c = ch " " \/ c = newline \/ c = carriage_return ->
            forall w1 r1, rule_match (Regex (Chr c)) s = Some (w1, r1) ->
            origin d s Text w1 r1).
  { intros c Hc w1 r1 E. apply chr_rule_inv in E. destruct E as [-> E].
    now apply OBlank. }
  assert (Hline : forall w1 r1,
            rule_match (Regex line_comment) s = Some (w1, r1) ->
            origin d s Comment w1 r1).
  { intros w1 r1 E. pose proof (rule_match_split _ _ _ _ E) as Es.
    apply line_comment_inv in E. destruct E as (b & Hb & ->).
    now apply OLine. }
  assert (Hblock : forall w1 r1,
            rule_match (Regex block_comment) s = Some (w1, r1) ->
            origin d s Comment w1 r1).
  { intros w1 r1 E. pose proof (rule_match_split _ _ _ _ E) as Es.
    apply rule_match_regex_sound, block_comment_shape in E.
    destruct E as (b & ->). now apply OBlock. }
  assert (Hwords : forall ws,
            (forall w', In w' (map str ws) -> word_text w' = true) ->
            (forall k, In k ws -> In k (keywords_of d)) ->
            forall w1 r1, rule_match (Words ws) s = Some (w1, r1) ->
            origin d s Keyword w1 r1).
  { intros ws Hall Hsub w1 r1 E.
    pose proof (rule_match_split _ _ _ _ E) as Es.
    apply (words_rule_inv _ _ _ _ Hall) in E.
    destruct E as (k & Hin & -> & B). apply OKeyword; auto. }
  assert (Hident : forall w1 r1,
            rule_match (Regex (Plus (Class (ident_class d)))) s
            = Some (w1, r1) ->
            origin d s Text w1 r1).
  { intros w1 r1 E. pose proof (rule_match_split _ _ _ _ E) as Es.
    apply class_plus_inv in E. destruct E as (Hne & Hw & Hr).
    now apply OIdent. }
  assert (Hother : forall w1 r1,
            rule_match (Regex (Chr (ch " "))) s = None ->
            rule_match (Regex (Chr carriage_return)) s = None ->
            rule_match (Regex (Plus (Class (ident_class d)))) s = None ->
            rule_match (Regex Dot) s = Some (w1, r1) ->
            origin d s Text w1 r1).
  { intros w1 r1 E1 E3 E7 E. apply dot_rule_inv in E.
    destruct E as (c & -> & -> & Hc).
    apply OOther; [now apply class_plus_none in E7|exact Hc
                  |now apply chr_rule_none in E1
                  |now apply chr_rule_none in E3|reflexivity]. }
  destruct d; cbn [lexer_of tokens CustomLexer PulseLexer first_match];
    destruct (rule_match (Regex (Chr (ch " "))) s) as [[w1 r1]|] eqn:E1;
    try (intros [= <- <- <-]; apply (Hblank (ch " ")); auto);
    destruct (rule_match (Regex (Chr newline)) s) as [[w2 r2]|] eqn:E2;
    try (intros [= <- <- <-]; apply (Hblank newline); auto);
    destruct (rule_match (Regex (Chr carriage_return)) s) as [[w3 r3]|] eqn:E3;
    try (intros [= <- <- <-]; apply (Hblank carriage_return); auto);
    destruct (rule_match (Regex line_comment) s) as [[w4 r4]|] eqn:E4;
    try (intros [= <- <- <-]; now apply Hline);
    destruct (rule_match (Regex block_comment) s) as [[w5 r5]|] eqn:E5;
    try (intros [= <- <- <-]; now apply Hblock);
    destruct (rule_match (Words fstar_keywords) s) as [[w6 r6]|] eqn:E6;
    try (intros [= <- <- <-];
         apply (Hwords fstar_keywords fstar_keywords_words);
         [cbn [keywords_of]; intros; try apply in_or_app; auto|exact E6]).
  - (* FStar *)
    destruct (rule_match (Regex fstar_ident) s) as [[w7 r7]|] eqn:E7.
    + intros [= <- <- <-]. now apply Hident.
    + destruct (rule_match (Regex Dot) s) as [[w8 r8]|] eqn:E8;
        [|discriminate].
      intros [= <- <- <-]. now apply Hother.
  - (* Pulse *)
    destruct (rule_match (Words pulse_keywords) s) as [[w9 r9]|] eqn:E9.
    + intros [= <- <- <-].
      apply (Hwords pulse_keywords pulse_keywords_words);
        [cbn [keywords_of]; intros; apply in_or_app; auto|exact E9].
    + destruct (rule_match (Regex pulse_ident) s) as [[w7 r7]|] eqn:E7.
      * intros [= <- <- <-]. now apply Hident.
      * destruct (rule_match (Regex Dot) s) as [[w8 r8]|] eqn:E8;
          [|discriminate].
        intros [= <- <- <-]. now apply Hother.
Qed.

(** The output of the loop is a chain of such matches. *)
Lemma scan_lexes d fuel : forall pos s toks,
  scan (tokens (lexer_of d)) fuel pos s = Some toks -> lexes d pos s toks.
Proof.
  induction fuel as [|fuel IH]; intros pos s toks; [discriminate|].
  cbn [scan].
  destruct (first_match (tokens (lexer_of d)) s) as [[[ty w] rest]|] eqn:E.
  - destruct (scan _ fuel _ rest) as [l|] eqn:El; [|discriminate].
    intros [= <-]. apply LexCons with rest.
    + now apply first_match_origin.
    + now apply IH.
  - destruct s as [|c s']; [intros [= <-]; constructor|].
    now apply lexer_cover in E.
Qed.

Lemma last_char_app w c : last_char (w ++ [c]) = Some c.
Proof.
  unfold last_char. rewrite map_app. cbn [map]. apply last_last.
Qed.

Lemma keyword_chars d k :
  In k (keywords_of d) ->
  forallb (in_class (ident_class Pulse)) (str k) = true /\
  word_text (str k) = true.
Proof.
  intros Hin.
  assert (A : forallb (fun k => forallb (in_class (ident_class Pulse)) (str k)
                               && word_text (str k))
                (fstar_keywords ++ pulse_keywords) = true)
    by (vm_compute; reflexivity).
  rewrite forallb_forall in A.
  assert (Hk : In k (fstar_keywords ++ pulse_keywords))
    by (destruct d; cbn [keywords_of] in Hin;
        [apply in_or_app; now left|exact Hin]).
  apply A in Hk. now apply andb_true_iff in Hk.
Qed.

Lemma pulse_class_fstar c :
  in_class (ident_class FStar) c
  = in_class (ident_class Pulse) c || in_class [Range (ch "0") (ch "9")] c.
Proof.
  unfold in_class. cbn [existsb ident_class].
  destruct (in_item c (Range (ch "a") (ch "z"))),
           (in_item c (Range (ch "A") (ch "Z"))),
           (in_item c (One (ch "_"))),
           (in_item c (Range (ch "0") (ch "9"))); reflexivity.
Qed.

Lemma ident_class_word d c :
  in_class (ident_class d) c = true -> is_word c = true.
Proof. destruct d; [apply fstar_class_word|apply pulse_class_word]. Qed.

Lemma pulse_class_sub d c :
  in_class (ident_class Pulse) c = true -> in_class (ident_class d) c = true.
Proof.
  destruct d; [|trivial]. rewrite pulse_class_fstar. now intros ->.
Qed.

Lemma origin_split d s ty w rest :
  origin d s ty w rest -> s = w ++ rest /\ w <> [].
Proof.
  destruct 1 as [c r _ E|b r _ E|b r E|k r Hk _ E|x r Hx _ _ E|c r _ _ _ _ E];
    (split; [exact E|]); try discriminate; try assumption.
  apply keyword_chars in Hk. destruct Hk as [_ Hk].
  now apply word_text_inv in Hk.
Qed.

Lemma lexes_forall d (P : token -> Prop) :
  (forall s ty w rest pos, origin d s ty w rest -> P (pos, ty, w)) ->
  forall pos s toks, lexes d pos s toks -> Forall P toks.
Proof.
  intros HP pos s toks H. induction H; constructor; eauto.
Qed.

Lemma lexes_adjacent d (P : token -> token -> Prop) :
  (forall s ty1 w1 rest ty2 w2 rest2 pos1 pos2,
     origin d s ty1 w1 rest -> origin d rest ty2 w2 rest2 ->
     P (pos1, ty1, w1) (pos2, ty2, w2)) ->
  forall pos s toks, lexes d pos s toks -> adjacent P toks.
Proof.
  intros HP pos s toks H. induction H as [|pos s ty w rest toks Ho Hl IH];
    [exact I|].
  destruct toks as [|t2 toks]; [exact I|].
  split; [|exact IH].
  inversion Hl; subst. eapply HP; eassumption.
Qed.

(** Every [Keyword] token spells a keyword of the lexer that emitted it, and
    the token after it, if any, does not start with a word character: at
    every position a [Keyword] token ends where [\b] holds. *)
Theorem keyword_tokens_sound (d : dialect) (s : text) :
  exists toks,
    get_tokens_unprocessed (lexer_of d) s = Some toks /\
    Forall (fun t => tok_type t = Keyword ->
                     exists k, In k (keywords_of d) /\ tok_text t = str k)
           toks /\
    adjacent (fun t1 t2 => tok_type t1 = Keyword ->
                           is_word_at (hd_error (tok_text t2)) = false)
             toks.
Proof.
  destruct (lexer_total d s) as (toks & H & _).
  exists toks. split; [exact H|].
  apply scan_lexes in H. split.
  - revert H. apply lexes_forall.
    intros s' ty w rest pos Ho. unfold tok_type, tok_text. cbn [fst snd].
    intros ->. inversion Ho; subst. eauto.
  - revert H. apply lexes_adjacent.
    intros s' ty1 w1 rest ty2 w2 rest2 p1 p2 H1 H2.
    unfold tok_type, tok_text. cbn [fst snd]. intros ->.
    apply origin_split in H2. destruct H2 as [-> Hne].
    inversion H1 as [| | |k r Hk B _| |]; subst.
    destruct w2; [congruence|exact B].
Qed.

(** Every [Comment] token is a line comment, two slashes and then no newline
    before the one that ends it, or a block comment, which starts with the
    open delimiter and ends with a close delimiter that does not overlap
    it. *)
Theorem comment_tokens_shape (d : dialect) (s : text) :
  exists toks,
    get_tokens_unprocessed (lexer_of d) s = Some toks /\
    Forall (fun t => tok_type t = Comment ->
              (exists b, forallb dot_accepts b = true /\
                         tok_text t = str "//" ++ b ++ [newline]) \/
              (exists b, tok_text t = str "(*" ++ b ++ str "*)"))
           toks.
Proof.
  destruct (lexer_total d s) as (toks & H & _).
  exists toks. split; [exact H|].
  apply scan_lexes in H. revert H. apply lexes_forall.
  intros s' ty w rest pos Ho. unfold tok_type, tok_text. cbn [fst snd].
  intros ->. inversion Ho; subst; eauto.
Qed.

(** Only comments span lines: a token whose text holds a newline is the
    one-character newline token, of type [Text], or a [Comment] token. *)
Theorem newline_only_in_comments (d : dialect) (s : text) :
  exists toks,
    get_tokens_unprocessed (lexer_of d) s = Some toks /\
    Forall (fun t => In newline (tok_text t) ->
              (tok_type t = Text /\ tok_text t = [newline]) \/
              tok_type t = Comment)
           toks.
Proof.
  destruct (lexer_total d s) as (toks & H & _).
  exists toks. split; [exact H|].
  apply scan_lexes in H. revert H. apply lexes_forall.
  intros s' ty w rest pos Ho. unfold tok_type, tok_text. cbn [fst snd].
  intros Hnl.
  assert (Hclass : forall x, forallb (in_class (ident_class d)) x = true ->
                     ~ In newline x).
  { intros x Hx Hin. rewrite forallb_forall in Hx. apply Hx in Hin.
    destruct d; discriminate. }
  destruct Ho as [c r Hc _|b r _ _|b r _|k r Hk _ _|x r _ Hx _ _
                 |c r _ Hc _ _ _].
  - left. split; [reflexivity|]. destruct Hnl as [->|[]]. reflexivity.
  - now right.
  - now right.
  - exfalso. apply (keyword_chars d) in Hk. destruct Hk as [Hk _].
    revert Hnl. apply (Hclass (str k)).
    rewrite forallb_forall in Hk |- *. intros y Hy.
    now apply pulse_class_sub, Hk.
  - exfalso. now apply (Hclass x Hx).
  - destruct Hnl as [->|[]]. congruence.
Qed.

(** *** Token boundaries *)

(** After a match that ends with an identifier character, no identifier
    character follows. *)
Lemma origin_boundary d s ty w rest :
  origin d s ty w rest ->
  in_class_at (ident_class d) (last_char w)
  && in_class_at (ident_class d) (hd_error rest) = false.
Proof.
  destruct 1 as [c r Hc _|b r _ _|b r _|k r _ B _|x r _ _ B _|c r Hc _ _ _ _].
  - replace (in_class_at (ident_class d) (last_char [c])) with false;
      [reflexivity|].
    destruct d, Hc as [->|[->| ->]]; reflexivity.
  - rewrite app_assoc, last_char_app.
    replace (in_class_at (ident_class d) (Some newline)) with false;
      [reflexivity|now destruct d].
  - change (str "*)") with ([ch "*"] ++ [ch ")"]).
    rewrite !app_assoc, last_char_app.
    replace (in_class_at (ident_class d) (Some (ch ")"))) with false;
      [reflexivity|now destruct d].
  - rewrite (class_at_word _ _ (ident_class_word d) B). apply andb_false_r.
  - rewrite B. apply andb_false_r.
  - change (last_char [c]) with (Some c). cbn [in_class_at]. now rewrite Hc.
Qed.

(** No token boundary falls inside a run of identifier characters of the
    lexer: of two tokens that follow one another, the first does not end and
    the second start with such a character.  In particular no identifier
    character of the lexer comes right before a [Keyword] token; for the
    Pulse lexer a digit is no identifier character, and may. *)
Theorem identifier_runs_not_split (d : dialect) (s : text) :
  (exists toks,
     get_tokens_unprocessed (lexer_of d) s = Some toks /\
     adjacent (fun t1 t2 =>
                 in_class_at (ident_class d) (last_char (tok_text t1))
                 && in_class_at (ident_class d) (hd_error (tok_text t2))
                 = false) toks /\
     adjacent (fun t1 t2 =>
                 tok_type t2 = Keyword ->
                 in_class_at (ident_class d) (last_char (tok_text t1))
                 = false) toks) /\
  get_tokens_unprocessed PulseLexer (str "1let ")
  = Some [(0, Text, str "1"); (1, Keyword, str "let"); (4, Text, str " ")] /\
  get_tokens_unprocessed CustomLexer (str "1let ")
  = Some [(0, Text, str "1let"); (4, Text, str " ")].
Proof.
  split; [|split; vm_compute; reflexivity].
  destruct (lexer_total d s) as (toks & H & _).
  exists toks. split; [exact H|].
  apply scan_lexes in H.
  assert (A : forall s' ty1 w1 rest ty2 w2 rest2,
            origin d s' ty1 w1 rest -> origin d rest ty2 w2 rest2 ->
            in_class_at (ident_class d) (last_char w1)
            && in_class_at (ident_class d) (hd_error w2) = false).
  { intros s' ty1 w1 rest ty2 w2 rest2 H1 H2.
    apply origin_boundary in H1. apply origin_split in H2.
    destruct H2 as [-> Hne]. destruct w2; [congruence|exact H1]. }
  split.
  - revert H. apply lexes_adjacent.
    intros s' ty1 w1 rest ty2 w2 rest2 p1 p2 H1 H2.
    unfold tok_text. cbn [snd]. exact (A _ _ _ _ _ _ _ H1 H2).
  - revert H. apply lexes_adjacent.
    intros s' ty1 w1 rest ty2 w2 rest2 p1 p2 H1 H2.
    unfold tok_text, tok_type. cbn [fst snd]. intros ->.
    pose proof (A _ _ _ _ _ _ _ H1 H2) as B.
    inversion H2 as [| | |k r Hk _ _| |]; subst.
    apply (keyword_chars d) in Hk. destruct Hk as [Hk Hw].
    apply word_text_inv in Hw. destruct Hw as [Hne _].
    destruct (str k) as [|a t]; [congruence|].
    cbn [forallb] in Hk. apply andb_true_iff in Hk. destruct Hk as [Ha _].
    apply (pulse_class_sub d) in Ha.
    cbn [hd_error in_class_at] in B. rewrite Ha, andb_true_r in B. exact B.
Qed.

(** *** Resuming at a token boundary *)






(** *** The Pulse lexer as an extension of the FStar lexer *)

Lemma spelled_spec ws w : spelled ws w = true <-> In w (map str ws).
Proof.
  unfold spelled. rewrite existsb_exists, in_map_iff. split.
  - intros (k & Hin & H). exists k. split; [|exact Hin].
    destruct (strip_prefix (str k) w) as [[|x r]|] eqn:E; try discriminate.
    apply strip_prefix_spec in E. now rewrite app_nil_r in E.
  - intros (k & <- & Hin). exists k. split; [exact Hin|].
    assert (E : strip_prefix (str k) (str k) = Some [])
      by (apply strip_prefix_spec; now rewrite app_nil_r).
    now rewrite E.
Qed.

Lemma digit_free_suffix w rest :
  digit_free (w ++ rest) = true -> digit_free rest = true.
Proof.
  unfold digit_free. rewrite forallb_app. intros H.
  now apply andb_true_iff in H.
Qed.

(** On a text without digits the two identifier rules match alike. *)
Lemma ident_agree s :
  digit_free s = true ->
  rule_match (Regex pulse_ident) s = rule_match (Regex fstar_ident) s.
Proof.
  intros Hd.
  destruct (class_run_split (ident_class FStar) s)
    as (run & tail & -> & Hrun & Htail).
  assert (Hrun' : forallb (in_class (ident_class Pulse)) run = true).
  { unfold digit_free in Hd. rewrite forallb_app in Hd.
    apply andb_true_iff in Hd. destruct Hd as [Hd _].
    rewrite forallb_forall in Hrun, Hd |- *. intros x Hx.
    specialize (Hrun x Hx). specialize (Hd x Hx).
    rewrite pulse_class_fstar in Hrun. apply negb_true_iff in Hd.
    rewrite Hd, orb_false_r in Hrun. exact Hrun. }
  assert (Htail' : in_class_at (ident_class Pulse) (hd_error tail) = false).
  { destruct tail as [|c tail]; [reflexivity|].
    cbn [hd_error in_class_at] in *. rewrite pulse_class_fstar in Htail.
    now apply orb_false_iff in Htail. }
  destruct run as [|a run].
  - destruct tail as [|c tail]; [reflexivity|].
    cbn [hd_error in_class_at app] in *.
    change pulse_ident with (Plus (Class (ident_class Pulse))).
    change fstar_ident with (Plus (Class (ident_class FStar))).
    rewrite (class_plus_miss (ident_class Pulse) c tail Htail').
    now rewrite (class_plus_miss (ident_class FStar) c tail Htail).
  - change pulse_ident with (Plus (Class (ident_class Pulse))).
    change fstar_ident with (Plus (Class (ident_class FStar))).
    rewrite (class_plus_rule (ident_class Pulse) (a :: run) tail);
      [|discriminate|exact Hrun'|exact Htail'].
    now rewrite (class_plus_rule (ident_class FStar) (a :: run) tail);
      [|discriminate|exact Hrun|exact Htail].
Qed.

(** On a text without digits the two tables commit to the same match, unless
    the match spells a Pulse keyword. *)
Lemma first_match_agree s ty w rest :
  digit_free s = true -> spelled pulse_keywords w = false ->
  first_match (tokens CustomLexer) s = Some (ty, w, rest) <->
  first_match (tokens PulseLexer) s = Some (ty, w, rest).
Proof.
  intros Hd Hw.
  cbn [tokens CustomLexer PulseLexer first_match].
  destruct (rule_match (Regex (Chr (ch " "))) s) as [[w1 r1]|];
    [reflexivity|].
  destruct (rule_match (Regex (Chr newline)) s) as [[w2 r2]|];
    [reflexivity|].
  destruct (rule_match (Regex (Chr carriage_return)) s) as [[w3 r3]|];
    [reflexivity|].
  destruct (rule_match (Regex line_comment) s) as [[w4 r4]|]; [reflexivity|].
  destruct (rule_match (Regex block_comment) s) as [[w5 r5]|];
    [reflexivity|].
  destruct (rule_match (Words fstar_keywords) s) as [[w6 r6]|];
    [reflexivity|].
  destruct (rule_match (Words pulse_keywords) s) as [[w9 r9]|] eqn:E9.
  - pose proof (rule_match_split _ _ _ _ E9) as Es.
    apply (words_rule_inv _ _ _ _ pulse_keywords_words) in E9.
    destruct E9 as (k & Hin & -> & B). subst s.
    destruct (pulse_keyword_fstar k r9 Hin B) as (_ & -> & _).
    assert (Hk : spelled pulse_keywords (str k) = true)
      by (apply spelled_spec; now apply in_map).
    split; intros [= _ <- _]; congruence.
  - now rewrite (ident_agree s Hd).
Qed.

Lemma scan_transfer d1 d2 :
  (forall s ty w rest,
     digit_free s = true -> spelled pulse_keywords w = false ->
     first_match (tokens (lexer_of d1)) s = Some (ty, w, rest) ->
     first_match (tokens (lexer_of d2)) s = Some (ty, w, rest)) ->
  forall fuel pos s toks,
    digit_free s = true ->
    forallb (fun t => negb (spelled pulse_keywords (tok_text t))) toks
    = true ->
    scan (tokens (lexer_of d1)) fuel pos s = Some toks ->
    scan (tokens (lexer_of d2)) fuel pos s = Some toks.
Proof.
  intros Hstep. induction fuel as [|fuel IH]; intros pos s toks Hd Ht;
    [discriminate|]. cbn [scan].
  destruct (first_match (tokens (lexer_of d1)) s) as [[[ty w] rest]|] eqn:E.
  - destruct (scan _ fuel _ rest) as [l|] eqn:El; [|discriminate].
    intros [= <-]. cbn [forallb tok_text snd] in Ht.
    apply andb_true_iff in Ht. destruct Ht as [Hw Hl].
    apply negb_true_iff in Hw.
    rewrite (Hstep _ _ _ _ Hd Hw E).
    apply first_match_progress in E; [|apply lexer_progress].
    destruct E as (-> & _ & _). apply digit_free_suffix in Hd.
    now rewrite (IH _ _ _ Hd Hl El).
  - destruct s as [|c s']; [|now apply lexer_cover in E].
    intros [= <-]. now rewrite first_match_end.
Qed.

(** On a text without digits, a token list in which no token spells a Pulse
    keyword is the output of the FStar lexer exactly when it is the output of
    the Pulse lexer: apart from digits, the Pulse lexer differs from the
    FStar lexer only where a Pulse keyword stands. *)
Theorem pulse_extends_fstar (s : text) (toks : list token) :
  digit_free s = true ->
  forallb (fun t => negb (spelled pulse_keywords (tok_text t))) toks = true ->
  get_tokens_unprocessed CustomLexer s = Some toks <->
  get_tokens_unprocessed PulseLexer s = Some toks.
Proof.
  intros Hd Ht. unfold get_tokens_unprocessed. split.
  - apply (scan_transfer FStar Pulse); [|exact Hd|exact Ht].
    intros s' ty w rest Hd' Hw. now apply first_match_agree.
  - apply (scan_transfer Pulse FStar); [|exact Hd|exact Ht].
    intros s' ty w rest Hd' Hw. now apply first_match_agree.
Qed.

(** *** A keyword before a letter outside ASCII *)

Lemma class_ascii d c :
  (128 <= c)%N -> in_class (ident_class d) c = false.
Proof.
  intros Hc. destruct d; unfold in_class, in_item, existsb, ident_class, ch;
    simpl N_of_ascii;
    repeat match goal with
           | |- context [(?a <=? ?b)%N] => destruct (N.leb_spec a b)
           | |- context [(?a =? ?b)%N] => destruct (N.eqb_spec a b)
           end; simpl; try reflexivity; lia.
Qed.

Lemma not_a_keyword d w c :
  (128 <= c)%N -> In c w ->
  ~ In w (map str (fstar_keywords ++ pulse_keywords)) /\
  ~ In w (map str fstar_keywords) /\ ~ In w (map str pulse_keywords) /\
  in_class (ident_class d) c = false.
Proof.
  intros Hc Hin.
  assert (A : ~ In w (map str (fstar_keywords ++ pulse_keywords))).
  { intros Hw. apply in_map_iff in Hw. destruct Hw as (k & <- & Hk).
    assert (Hk' : In k (keywords_of Pulse)) by exact Hk.
    apply keyword_chars in Hk'. destruct Hk' as [Hk' _].
    rewrite forallb_forall in Hk'. apply Hk' in Hin.
    now rewrite (class_ascii Pulse c Hc) in Hin. }
  rewrite map_app in A. repeat split.
  - now rewrite map_app.
  - intros Hw. apply A, in_or_app. now left.
  - intros Hw. apply A, in_or_app. now right.
  - now apply class_ascii.
Qed.

(** A keyword directly followed by a letter or digit outside ASCII is not a
    keyword for [\b], yet the identifier rule, which knows ASCII only, stops
    before that character: the output is the keyword as a [Text] token and
    the character as a [Text] token of its own. *)
Theorem keyword_before_unicode_letter (d : dialect) (k : string) (c : char) :
  In k (keywords_of d) -> (128 <= c)%N -> unicode_alnum c = true ->
  get_tokens_unprocessed (lexer_of d) (str k ++ [c])
  = Some [(0, Text, str k); (length (str k), Text, [c])].
Proof.
  intros Hk Hc Hu.
  assert (Hcw : is_word c = true).
  { unfold is_word. destruct (N.ltb_spec c 128); [lia|exact Hu]. }
  destruct (keyword_chars d k Hk) as [Hcls Hw].
  assert (Hcls' : forallb (in_class (ident_class d)) (str k) = true).
  { rewrite forallb_forall in Hcls |- *. intros x Hx.
    now apply pulse_class_sub, Hcls. }
  pose proof (word_text_inv _ Hw) as [Hne Hall].
  assert (Hkc : word_text (str k ++ [c]) = true).
  { destruct (str k) as [|a t]; [congruence|]. cbn [app word_text].
    change (a :: t ++ [c]) with ((a :: t) ++ [c]).
    rewrite forallb_app, Hall. cbn [forallb]. now rewrite Hcw. }
  destruct (not_a_keyword d (str k ++ [c]) c Hc) as (_ & N1 & N2 & Ncls);
    [apply in_or_app; right; now left|].
  destruct (not_a_keyword d [c] c Hc) as (_ & M1 & M2 & _); [now left|].
  assert (Hc1 : word_text [c] = true) by (cbn; now rewrite Hcw).
  assert (E1 : first_match (tokens (lexer_of d)) (str k ++ [c])
               = Some (Text, str k, [c])).
  { rewrite (first_match_at_word_text d _ _ Hw).
    pose proof (words_rule_miss fstar_keywords (str k ++ [c]) []
                  fstar_keywords_words Hkc N1 eq_refl) as W1.
    pose proof (words_rule_miss pulse_keywords (str k ++ [c]) []
                  pulse_keywords_words Hkc N2 eq_refl) as W2.
    rewrite app_nil_r in W1, W2.
    pose proof (class_plus_rule (ident_class d) (str k) [c] Hne Hcls' Ncls)
      as I1.
    destruct d; cbn [lexer_of tokens CustomLexer PulseLexer skipn first_match];
      rewrite W1, ?W2;
      [change fstar_ident with (Plus (Class (ident_class FStar)))
      |change pulse_ident with (Plus (Class (ident_class Pulse)))];
      now rewrite I1. }
  assert (E2 : first_match (tokens (lexer_of d)) [c] = Some (Text, [c], [])).
  { rewrite (first_match_at_word d c [] Hcw).
    pose proof (words_rule_miss fstar_keywords [c] [] fstar_keywords_words
                  Hc1 M1 eq_refl) as W1.
    pose proof (words_rule_miss pulse_keywords [c] [] pulse_keywords_words
                  Hc1 M2 eq_refl) as W2.
    cbn [app] in W1, W2.
    pose proof (class_plus_miss (ident_class d) c [] Ncls) as I1.
    assert (D1 : rule_match (Regex Dot) [c] = Some ([c], []))
      by (apply dot_rule; intros ->; now apply N.leb_le in Hc).
    destruct d; cbn [lexer_of tokens CustomLexer PulseLexer skipn first_match];
      rewrite W1, ?W2;
      [change fstar_ident with (Plus (Class (ident_class FStar)))
      |change pulse_ident with (Plus (Class (ident_class Pulse)))];
      now rewrite I1, D1. }
  unfold get_tokens_unprocessed. rewrite length_app. cbn [length].
  destruct (length (str k)) as [|n] eqn:El;
    [destruct (str k); [congruence|discriminate]|].
  rewrite Nat.add_1_r.
  rewrite (scan_step _ _ _ _ _ _ _ E1), El.
  rewrite (scan_step _ _ _ _ _ _ _ E2).
  cbn [scan Nat.add]. now rewrite first_match_end.
Qed.

(** *** How far a block comment can run *)

Lemma matches_alt_inv r1 r2 w :
  matches (Alt r1 r2) w -> matches r1 w \/ matches r2 w.
Proof. inversion 1; subst; auto. Qed.

Lemma matches_notclass_inv items w :
  matches (NotClass items) w ->
  exists c, w = [c] /\ in_class items c = false.
Proof. inversion 1; subst. eauto. Qed.

Lemma star_inv c : in_class [One (ch "*")] c = true -> c = ch "*".
Proof. cbn. rewrite orb_false_r. apply N.eqb_eq. Qed.

Lemma all_stars_no_paren st :
  forallb (in_class [One (ch "*")]) st = true -> ~ In (ch ")") st.
Proof.
  intros H Hin. rewrite forallb_forall in H. apply H in Hin. discriminate.
Qed.

(** One round of the body of a block comment: a character that is no
    asterisk, or asterisks and then a character that is no close
    parenthesis. *)
Lemma comment_body_round e :
  matches (Alt (NotClass [One (ch "*")])
               (Seq (Plus (Class [One (ch "*")])) (NotClass [One (ch ")")])))
          e ->
  (exists c, e = [c] /\ in_class [One (ch "*")] c = false) \/
  (exists st z, e = st ++ [z] /\ st <> [] /\
                forallb (in_class [One (ch "*")]) st = true /\
                in_class [One (ch ")")] z = false).
Proof.
  intros H. apply matches_alt_inv in H. destruct H as [H|H].
  - left. now apply matches_notclass_inv.
  - right. apply matches_seq_inv in H. destruct H as (st & w2 & -> & H1 & H2).
    apply matches_notclass_inv in H2. destruct H2 as (z & -> & Hz).
    apply matches_plus_inv in H1. destruct H1 as (w1 & w3 & -> & H1 & H3).
    apply matches_class_inv in H1. destruct H1 as (c & -> & Hc).
    apply star_class_all in H3.
    exists ([c] ++ w3), z. repeat split; [discriminate| |exact Hz].
    cbn [app forallb]. now rewrite Hc, H3.
Qed.

Lemma paren_in_round (x l st : text) (p a z : char) :
  x ++ p :: a :: l = st ++ [z] -> In a st \/ z = a.
Proof.
  intros H. destruct (exists_last (l := a :: l)) as (l1 & z' & El);
    [discriminate|].
  rewrite El in H.
  replace (x ++ p :: l1 ++ [z']) with ((x ++ p :: l1) ++ [z']) in H
    by (now rewrite <- app_assoc).
  apply app_inj_tail in H. destruct H as [<- <-].
  destruct l1 as [|q l1]; injection El as -> _; [now right|left].
  apply in_or_app. right. right. now left.
Qed.

Lemma paren_in_stars (st y0 l : text) (p a q z : char) :
  st ++ [p] = l ++ a :: q :: y0 ++ [z] -> In q st.
Proof.
  intros H.
  replace (l ++ a :: q :: y0 ++ [z]) with ((l ++ a :: q :: y0) ++ [z]) in H
    by (now rewrite <- app_assoc).
  apply app_inj_tail in H. destruct H as [-> _].
  apply in_or_app. right. right. now left.
Qed.

(** In the body of a block comment every close delimiter comes right after
    an asterisk. *)
Lemma comment_body_soft b :
  matches (Star (Alt (NotClass [One (ch "*")])
                     (Seq (Plus (Class [One (ch "*")]))
                          (NotClass [One (ch ")")])))) b ->
  forall x y, b = x ++ ch "*" :: ch ")" :: y -> ends_with (ch "*") x = true.
Proof.
  intros H. remember (Star _) as r eqn:Er.
  induction H as [| | | | | | | |r0 e b' He _ Hne Hb' IH|]; try discriminate.
  - intros x y E. destruct x; discriminate.
  - injection Er as ->. specialize (IH eq_refl).
    intros x y E.
    destruct (ends_with (ch "*") x) eqn:Hx; [reflexivity|exfalso].
    apply comment_body_round in He.
    apply app_eq_app in E. destruct E as (l & [[-> E]|[-> E]]).
    + (* the delimiter starts inside this round *)
      destruct l as [|a l].
      * cbn [app] in E. specialize (IH [] y (eq_sym E)). discriminate.
      * injection E as E1 E. subst a. destruct l as [|a l].
        -- cbn [app] in E.
           destruct He as [(c & He & Hc)|(st & z & He & Hst & Hall & Hz)].
           ++ destruct x; [|destruct x; discriminate].
              injection He as <-. discriminate.
           ++ apply app_inj_tail in He. destruct He as [-> <-].
              destruct (all_stars_last st Hst Hall) as (l0 & ->).
              rewrite ends_with_last in Hx. discriminate.
        -- injection E as E1 E. subst a.
           destruct He as [(c & He & Hc)|(st & z & He & Hst & Hall & Hz)].
           ++ apply (f_equal (@length _)) in He. rewrite length_app in He.
              simpl in He. lia.
           ++ apply paren_in_round in He. destruct He as [Hin| ->].
              ** now apply (all_stars_no_paren st Hall).
              ** discriminate.
    + (* the delimiter lies after this round *)
      apply ends_with_app in Hx.
      specialize (IH l y E). congruence.
Qed.

(** A block comment runs past a close delimiter only when an asterisk of
    its body comes right before that delimiter. *)
Lemma block_comment_soft w x y :
  matches block_comment w ->
  w = str "(*" ++ x ++ str "*)" ++ y -> y <> [] ->
  ends_with (ch "*") x = true.
Proof.
  unfold block_comment. intros H E Hy.
  apply matches_seq_inv in H. destruct H as (w1 & w2 & -> & H1 & H).
  apply matches_seq_inv in H. destruct H as (w3 & w4 & -> & H2 & H).
  apply matches_seq_inv in H. destruct H as (b & w5 & -> & Hb & H).
  apply matches_seq_inv in H. destruct H as (st & w6 & -> & H3 & H4).
  apply matches_chr_inv in H1, H4. subst w1 w6.
  apply matches_class_inv in H2. destruct H2 as (c & -> & Hc).
  apply star_inv in Hc. subst c.
  apply matches_plus_inv in H3. destruct H3 as (s1 & s2 & -> & H3 & H5).
  apply matches_class_inv in H3. destruct H3 as (c & -> & Hc).
  apply star_class_all in H5.
  assert (Hst : forallb (in_class [One (ch "*")]) ([c] ++ s2) = true)
    by (cbn [app forallb]; now rewrite Hc, H5).
  change ([ch "("] ++ [ch "*"] ++ b ++ ([c] ++ s2) ++ [ch ")"])
    with (str "(*" ++ b ++ ([c] ++ s2) ++ [ch ")"]) in E.
  apply app_inv_head in E.
  destruct (exists_last Hy) as (y0 & z & ->).
  apply app_eq_app in E. destruct E as (l & [[-> E]|[-> E]]).
  - (* the delimiter starts in the body *)
    destruct l as [|a l].
    + exfalso. symmetry in E.
      apply (paren_in_stars ([c] ++ s2) y0 [] (ch ")") (ch "*") (ch ")") z)
        in E.
      now apply (all_stars_no_paren _ Hst).
    + injection E as E1 E. subst a. destruct l as [|a l].
      * exfalso. injection E as E1 _. subst c. discriminate.
      * injection E as E1 E. subst a.
        now apply (comment_body_soft _ Hb x l).
  - (* the delimiter starts in the closing asterisks *)
    exfalso.
    apply (paren_in_stars ([c] ++ s2) y0 l (ch ")") (ch "*") (ch ")") z) in E.
    now apply (all_stars_no_paren _ Hst).
Qed.

(** A block comment never runs past a close delimiter whose asterisk stands
    alone: where a [Comment] token that starts with the open delimiter holds
    a close delimiter before its end, an asterisk of the comment's body comes
    right before that delimiter. *)
Theorem block_comment_stops_at_lone_asterisk (d : dialect) (s : text) :
  exists toks,
    get_tokens_unprocessed (lexer_of d) s = Some toks /\
    Forall (fun t => tok_type t = Comment ->
              forall x y,
                tok_text t = str "(*" ++ x ++ str "*)" ++ y -> y <> [] ->
                ends_with (ch "*") x = true) toks.
Proof.
  destruct (lexer_total d s) as (toks & H & _).
  exists toks. split; [exact H|].
  revert H. unfold get_tokens_unprocessed.
  apply scan_comments
    with (I := fun _ => True)
         (Q := fun w => forall x y,
                 w = str "(*" ++ x ++ str "*)" ++ y -> y <> [] ->
                 ends_with (ch "*") x = true); [trivial| |exact I].
  intros w r _ [Hl|Hb] x y E Hy.
  - apply line_comment_shape in Hl. destruct Hl as (b & ->). discriminate.
  - exact (block_comment_soft w x y Hb E Hy).
Qed.

End Engine.

(** ** Closed instances *)

Lemma keyword_word_boundary_witness :
  In "let"%string (keywords_of FStar) /\
  is_word ascii_only (ch " ") = false /\
  is_word ascii_only (ch "r") = true /\
  get_tokens_unprocessed ascii_only CustomLexer (str "let ")
  = Some [(0, Keyword, str "let"); (3, Text, str " ")] /\
  get_tokens_unprocessed ascii_only CustomLexer (str "letrec")
  <> Some [(0, Keyword, str "let"); (3, Text, str "rec")].
Proof.
  assert (Hin : In "let"%string (keywords_of FStar))
    by (cbn [keywords_of fstar_keywords];
        repeat (first [left; reflexivity | right])).
  split; [exact Hin|]. split; [reflexivity|]. split; [reflexivity|]. split.
  - exact (proj2 (proj1 (keyword_word_boundary ascii_only FStar "let"
                           (ch " ") [] Hin) eq_refl)).
  - exact (proj1 (proj2 (keyword_word_boundary ascii_only FStar "let"
                           (ch "r") (str "ec") Hin)) eq_refl _).
Defined.

Lemma extension_vocabulary_witness :
  is_word_at ascii_only (hd_error (str " x")) = false /\
  In "fn"%string pulse_keywords /\
  (exists toks,
     get_tokens_unprocessed ascii_only CustomLexer (str "fn" ++ str " x")
     = Some ((0, Text, str "fn") :: toks)) /\
  (exists toks,
     get_tokens_unprocessed ascii_only PulseLexer (str "fn" ++ str " x")
     = Some ((0, Keyword, str "fn") :: toks)).
Proof.
  assert (Hin : In "fn"%string pulse_keywords) by (left; reflexivity).
  split; [reflexivity|]. split; [exact Hin|]. split.
  - exact (proj1 (proj2 (proj1 (extension_vocabulary ascii_only (str " x")
                                  eq_refl) "fn"%string Hin))).
  - exact (proj2 (proj2 (proj1 (extension_vocabulary ascii_only (str " x")
                                  eq_refl) "fn"%string Hin))).
Defined.

(** C3, the claim as stated fails: the last rule does not match the newline. *)
Lemma catch_all_rejects_newline :
  ~ (forall (alnum : char -> bool) (d : dialect) (c : char),
       rule_match alnum (fst (catch_all (lexer_of d))) [c] <> None).
Proof.
  intros H. apply (H ascii_only FStar newline). reflexivity.
Qed.

(** C9, the claim as stated fails: a text that starts with two slashes and
    has no newline can contain a keyword and a block comment, which are
    emitted as [Keyword] and [Comment] tokens. *)
Lemma unterminated_line_comment_counterexample :
  forallb dot_accepts (str "//let (**)") = true /\
  exists toks,
    (forall alnum,
       get_tokens_unprocessed alnum CustomLexer (str "//let (**)")
       = Some toks) /\
    In (2, Keyword, str "let") toks /\
    In (6, Comment, str "(**)") toks /\
    ~ Forall (fun t => tok_type t = Text) toks.
Proof.
  split; [reflexivity|].
  exists [(0, Text, str "/"); (1, Text, str "/"); (2, Keyword, str "let");
          (5, Text, str " "); (6, Comment, str "(**)")].
  split; [intros alnum; vm_compute; reflexivity|].
  split; [right; right; left; reflexivity|].
  split; [do 4 right; left; reflexivity|].
  intros H. rewrite Forall_forall in H.
  assert (A : tok_type (2, Keyword, str "let") = Text)
    by (apply H; right; right; left; reflexivity).
  discriminate A.
Qed.

Lemma line_comment_needs_newline_witness :
  forallb dot_accepts (str " hello") = true /\
  rule_match ascii_only (Regex line_comment) (str "//" ++ str " hello") = None /\
  exists toks,
    get_tokens_unprocessed ascii_only CustomLexer
      (str "//" ++ str " hello" ++ newline :: str "let")
    = Some ((0, Comment, str "//" ++ str " hello" ++ [newline]) :: toks).
Proof.
  split; [reflexivity|]. split.
  - exact (proj1 (line_comment_needs_newline ascii_only FStar (str " hello")
                    (str "let") eq_refl)).
  - exact (proj1 (proj2 (proj2 (proj2 (proj2
             (line_comment_needs_newline ascii_only FStar (str " hello")
                (str "let") eq_refl)))))).
Defined.

(** C10, the claim as stated fails: in this text no close delimiter follows
    either open delimiter, yet the characters after the first one include a
    [Keyword] token, and the second one lies inside a [Comment] token, that
    of the line comment around it. *)
Lemma unterminated_block_comment_counterexample :
  occurs (str "*)") (str "(* let //(*" ++ [newline]) = false /\
  exists toks,
    (forall alnum,
       get_tokens_unprocessed alnum CustomLexer
         (str "(* let //(*" ++ [newline])
       = Some toks) /\
    In (3, Keyword, str "let") toks /\
    In (7, Comment, str "//(*" ++ [newline]) toks.
Proof.
  split; [reflexivity|].
  exists [(0, Text, str "("); (1, Text, str "*"); (2, Text, str " ");
          (3, Keyword, str "let"); (6, Text, str " ");
          (7, Comment, str "//(*" ++ [newline])].
  split; [intros alnum; vm_compute; reflexivity|].
  split; [do 3 right; left; reflexivity|do 5 right; left; reflexivity].
Qed.

Lemma block_comment_needs_close_witness :
  occurs (str "*)") (str " let") = false /\
  rule_match ascii_only (Regex block_comment) (str "(*" ++ str " let") = None.
Proof.
  split; [reflexivity|].
  exact (proj1 (block_comment_needs_close ascii_only FStar (str " let") 0
                  eq_refl)).
Defined.

Lemma block_comment_to_first_close_witness :
  occurs (str "*)") (str " a (* b ") = false /\
  ends_with (ch "*") (str " a (* b ") = false /\
  exists toks,
    get_tokens_unprocessed ascii_only CustomLexer
      (str "(*" ++ str " a (* b " ++ str "*)" ++ str " c *)")
    = Some ((0, Comment, str "(*" ++ str " a (* b " ++ str "*)") :: toks).
Proof.
  split; [reflexivity|]. split; [reflexivity|].
  exact (block_comment_to_first_close ascii_only FStar (str " a (* b ")
           (str " c *)") eq_refl eq_refl).
Defined.


Lemma pulse_extends_fstar_witness :
  digit_free (str "let x = (* c *) y") = true /\
  forallb (fun t => negb (spelled pulse_keywords (tok_text t)))
    [(0, Keyword, str "let"); (3, Text, str " "); (4, Text, str "x");
     (5, Text, str " "); (6, Text, str "="); (7, Text, str " ");
     (8, Comment, str "(* c *)"); (15, Text, str " "); (16, Text, str "y")]
  = true /\
  get_tokens_unprocessed ascii_only PulseLexer (str "let x = (* c *) y")
  = Some [(0, Keyword, str "let"); (3, Text, str " "); (4, Text, str "x");
          (5, Text, str " "); (6, Text, str "="); (7, Text, str " ");
          (8, Comment, str "(* c *)"); (15, Text, str " ");
          (16, Text, str "y")].
Proof.
  split; [reflexivity|]. split; [reflexivity|].
  exact (proj1 (pulse_extends_fstar ascii_only (str "let x = (* c *) y")
                  [(0, Keyword, str "let"); (3, Text, str " ");
                   (4, Text, str "x"); (5, Text, str " ");
                   (6, Text, str "="); (7, Text, str " ");
                   (8, Comment, str "(* c *)"); (15, Text, str " ");
                   (16, Text, str "y")]
                  eq_refl eq_refl) eq_refl).
Defined.

(** A table for [\w] that accepts the letter e with an acute accent, code
    point 233, and nothing else above 127. *)
Lemma keyword_before_unicode_letter_witness :
  In "let"%string (keywords_of FStar) /\ (128 <= 233)%N /\
  (fun c => (c =? 233)%N) 233%N = true /\
  get_tokens_unprocessed (fun c => (c =? 233)%N) CustomLexer
    (str "let" ++ [233%N])
  = Some [(0, Text, str "let"); (3, Text, [233%N])].
Proof.
  assert (Hin : In "let"%string (keywords_of FStar))
    by (cbn [keywords_of fstar_keywords];
        repeat (first [left; reflexivity | right])).
  split; [exact Hin|]. split; [discriminate|]. split; [reflexivity|].
  exact (keyword_before_unicode_letter (fun c => (c =? 233)%N) FStar "let"
           233%N Hin (fun H => match H with eq_refl => I end) eq_refl).
Defined.
